(** * e2pics: windows of packed pixels of a remote picture

  A shallow embedding of [e2pics/app.py] and the properties of its
  Window Service, Pixel Packer, Aspect-Fit Resizer and the two
  memoising caches.

  Python integers are [Z]; Python lists and NumPy vectors are [list];
  exceptions are values of [Py.exn] carried by [Py.result]; the module
  level caches and the network are threaded explicitly as a [State]. *)

From Stdlib Require Import ZArith List String Ascii Bool Lia.
From Stdlib Require Import SpecFloat.
Import ListNotations.

Local Open Scope string_scope.
Local Open Scope list_scope.
Local Open Scope Z_scope.

(* ================================================================= *)
(** * Python: exceptions, slices, strings, floats *)

Module Py.

(** The exception classes the program can meet.  The four [requests]
    classes and [UnidentifiedImageError] are the ones the handler
    names; the last three are raised by Pillow and by Python's
    arithmetic and are caught nowhere in [app.py]. *)
Inductive exn : Type :=
| HTTPError (msg : string)
| Timeout
| ConnectionError
| RequestException
| UnidentifiedImageError (msg : string)
| ValueError (msg : string)
| ZeroDivisionError
| OverflowError.

Inductive result (A : Type) : Type :=
| Ok (a : A)
| Raise (e : exn).
Arguments Ok {A} a.
Arguments Raise {A} e.

Definition bind {A B} (r : result A) (k : A -> result B) : result B :=
  match r with
  | Ok a => k a
  | Raise e => Raise e
  end.

(** [for x in l: f x], stopping at the first exception. *)
Fixpoint mapM {A B} (f : A -> result B) (l : list A) : result (list B) :=
  match l with
  | [] => Ok []
  | x :: xs =>
      bind (f x) (fun y => bind (mapM f xs) (fun ys => Ok (y :: ys)))
  end.

(** [range(n)] *)
Definition range (n : Z) : list Z :=
  map Z.of_nat (seq 0 (Z.to_nat n)).

(** [enumerate(l)] *)
Definition enumerate {A} (l : list A) : list (Z * A) :=
  combine (range (Z.of_nat (List.length l))) l.

(** One bound of a slice [l[start:stop]]: a negative bound counts from
    the end, and every bound is clamped to [0 .. len(l)]. *)
Definition slice_index (len x : Z) : Z :=
  if x <? 0 then Z.max 0 (x + len) else Z.min x len.

(** [l[start:stop]] *)
Definition slice {A} (l : list A) (start stop : Z) : list A :=
  let len := Z.of_nat (List.length l) in
  let lo := slice_index len start in
  let hi := slice_index len stop in
  firstn (Z.to_nat (hi - lo)) (skipn (Z.to_nat lo) l).

(** [sep.join(l)] *)
Definition join (sep : string) (l : list string) : string :=
  String.concat sep l.

(** [s.split(c)] for a one-character separator [c]. *)
Fixpoint split (c : ascii) (s : string) : list string :=
  match s with
  | EmptyString => [EmptyString]
  | String a s' =>
      if Ascii.eqb a c then EmptyString :: split c s'
      else match split c s' with
           | [] => [String a EmptyString]
           | t :: ts => String a t :: ts
           end
  end.

(** ** Floats: IEEE 754 binary64, from the library's executable
    specification. *)
Definition float := spec_float.
Definition prec : Z := 53.
Definition emax : Z := 1024.

(** [float(n)]: the nearest binary64, exact for [|n| < 2^53]. *)
Definition float_of_int (n : Z) : float :=
  binary_normalize prec emax n 0 false.

(** [a / b] on two integers.  CPython rounds the exact quotient to the
    nearest binary64; when [|a|] and [|b|] are below [2^53] both
    conversions are exact and this is the quotient of the two floats. *)
Definition truediv (a b : Z) : result float :=
  if b =? 0 then Raise ZeroDivisionError
  else Ok (SFdiv prec emax (float_of_int a) (float_of_int b)).

(** [n * x] for an integer [n] and a float [x]. *)
Definition mul_int_float (n : Z) (x : float) : float :=
  SFmul prec emax (float_of_int n) x.

(** [int(x)]: truncation toward zero. *)
Definition int_of_float (x : float) : result Z :=
  match x with
  | S754_zero _ => Ok 0
  | S754_finite s m e =>
      let t := match e with
               | Zneg p => Z.shiftr (Zpos m) (Zpos p)
               | _ => Z.shiftl (Zpos m) e
               end in
      Ok (if s then - t else t)
  | S754_infinity _ => Raise OverflowError
  | S754_nan => Raise (ValueError "cannot convert float NaN to integer")
  end.

End Py.
Import Py.

(* ================================================================= *)
(** * NumPy: [base_repr] and unsigned 32-bit cells *)

Module Np.

(** A value stored in a [uint32] cell. *)
Definition uint32 (v : Z) : Z := v mod 2 ^ 32.

(** [np.zeros(n, "uint32")] *)
Definition zeros (n : nat) : list Z := repeat 0 n.

(** [a[i] = v] on a vector; the program only writes inside the vector. *)
Fixpoint setitem (a : list Z) (i : nat) (v : Z) : list Z :=
  match a, i with
  | [], _ => []
  | _ :: t, O => v :: t
  | h :: t, S j => h :: setitem t j v
  end.

Definition digits : string := "0123456789ABCDEFGHIJKLMNOPQRSTUVWXYZ".

(** [digits[d]] *)
Definition digit (d : Z) : ascii :=
  nth (Z.to_nat d) (list_ascii_of_string digits) "0"%char.

(** The loop [while num: res.append(digits[num % base]); num //= base].
    [None] is an exhausted fuel. *)
Fixpoint base_repr_loop (fuel : nat) (base num : Z) (res : list ascii)
  : option (list ascii) :=
  if num =? 0 then Some res
  else match fuel with
       | O => None
       | S fuel' =>
           base_repr_loop fuel' base (num / base)
                          (res ++ [digit (num mod base)])
       end.

(** The loop divides [num] by [base >= 2] each turn, so it makes at
    most [log2 num + 1] turns. *)
Definition base_repr_fuel (num : Z) : nat := S (Z.to_nat (Z.log2 num)).

(** [np.base_repr(number, base)] with the default [padding=0]. *)
Definition base_repr (number base : Z) : result string :=
  if Z.of_nat (String.length digits) <? base
  then Raise (ValueError "Bases greater than 36 not handled in base_repr.")
  else if base <? 2
  then Raise (ValueError "Bases less than 2 not handled in base_repr.")
  else
    let num := Z.abs number in
    let res := match base_repr_loop (base_repr_fuel num) base num [] with
               | Some res => res
               | None => []
               end in
    let res := if number <? 0 then res ++ ["-"%char] else res in
    let res := match res with [] => ["0"%char] | _ => res end in
    Ok (string_of_list_ascii (rev res)).

(** Reading a numeral back, as Python's [int(s, base)] does for digits
    in upper case: [digits.index(c)] for each character, the most
    significant first. *)
Fixpoint index (c : ascii) (l : list ascii) : option Z :=
  match l with
  | [] => None
  | h :: t =>
      if Ascii.eqb c h then Some 0 else option_map Z.succ (index c t)
  end.

Definition digit_value (c : ascii) : option Z :=
  index c (list_ascii_of_string digits).

Fixpoint int_loop (base acc : Z) (l : list ascii) : option Z :=
  match l with
  | [] => Some acc
  | c :: t =>
      match digit_value c with
      | Some d => if d <? base then int_loop base (acc * base + d) t else None
      | None => None
      end
  end.

Definition int (s : string) (base : Z) : option Z :=
  match list_ascii_of_string s with
  | [] => None
  | l => int_loop base 0 l
  end.

End Np.

(* ================================================================= *)
(** * Pillow: RGBA images *)

Module PIL.

(** An RGBA pixel [(r, g, b, a)]. *)
Definition RGBA : Type := (Z * Z * Z * Z)%type.

(** An image in mode "RGBA": its size and the pixel at column [x] of
    row [y], read for [0 <= x < width] and [0 <= y < height]. *)
Record Image : Type := {
  width : Z;
  height : Z;
  getpixel : Z -> Z -> RGBA
}.

Definition transparent : RGBA := (0, 0, 0, 0).

(** [Image.new("RGBA", (w, h))]: every pixel is [(0, 0, 0, 0)]. *)
Definition new (w h : Z) : result Image :=
  if (w <? 0) || (h <? 0)
  then Raise (ValueError "Width and height must be >= 0")
  else Ok {| width := w; height := h; getpixel := fun _ _ => transparent |}.

(** A resampling filter gives the pixels of the resized picture; the
    bicubic one is a parameter of the development. *)
Definition Resampling : Type := Image -> Z -> Z -> Z -> Z -> RGBA.

(** [img.resize((w, h), filter)] *)
Definition resize (filter : Resampling) (img : Image) (w h : Z)
  : result Image :=
  if (w <? 1) || (h <? 1)
  then Raise (ValueError "height and width must be > 0")
  else Ok {| width := w; height := h; getpixel := filter img w h |}.

(** [canvas.paste(img, (ox, oy))]: the pixels of [img] replace those of
    [canvas] in the box of [img]'s size at [(ox, oy)], clipped to the
    canvas. *)
Definition paste (canvas img : Image) (ox oy : Z) : Image :=
  {| width := width canvas;
     height := height canvas;
     getpixel := fun x y =>
       if (ox <=? x) && (x <? ox + width img)
          && (oy <=? y) && (y <? oy + height img)
       then getpixel img (x - ox) (y - oy)
       else getpixel canvas x y |}.

(** [img.getdata()]: the rows one after the other, each from left to
    right. *)
Definition getdata (img : Image) : list RGBA :=
  flat_map (fun y => map (fun x => getpixel img x y) (range (width img)))
           (range (height img)).

End PIL.
Import PIL.

(* ================================================================= *)
(** * functools: the [lru_cache] decorator *)

Module Functools.

(** The state of one memoised function: its entries, the most recently
    used first, and the two counters of [cache_info()].  [uses] is a
    ghost log, for the statements only: the keys of the calls that
    returned a value, the latest first.  No branch reads it. *)
Record lru_cache (K V : Type) : Type := {
  entries : list (K * V);
  hits : Z;
  misses : Z;
  uses : list K
}.
Arguments entries {K V} _.
Arguments hits {K V} _.
Arguments misses {K V} _.
Arguments uses {K V} _.

Definition empty {K V} : lru_cache K V :=
  {| entries := []; hits := 0; misses := 0; uses := [] |}.

Section Wrapper.
Context {S K V : Type}.
Variable eqb : K -> K -> bool.

Fixpoint cache_get (key : K) (l : list (K * V)) : option V :=
  match l with
  | [] => None
  | (k, v) :: t => if eqb key k then Some v else cache_get key t
  end.

Definition remove_key (key : K) (l : list (K * V)) : list (K * V) :=
  filter (fun kv => negb (eqb key (fst kv))) l.

(** A hit: the entry moves to the front. *)
Definition touch (key : K) (v : V) (c : lru_cache K V) : lru_cache K V :=
  {| entries := (key, v) :: remove_key key (entries c);
     hits := hits c + 1;
     misses := misses c;
     uses := key :: uses c |}.

(** A miss is counted before the decorated function runs. *)
Definition missed (c : lru_cache K V) : lru_cache K V :=
  {| entries := entries c;
     hits := hits c;
     misses := misses c + 1;
     uses := uses c |}.

(** A new result goes to the front; when the cache is full the entry at
    the back is dropped first. *)
Definition store (maxsize : Z) (key : K) (v : V) (c : lru_cache K V)
  : lru_cache K V :=
  {| entries :=
       (key, v) :: (if maxsize <=? Z.of_nat (List.length (entries c))
                    then removelast (entries c)
                    else entries c);
     hits := hits c;
     misses := misses c;
     uses := key :: uses c |}.

(** The wrapper for a positive [maxsize].  The cache lives in the program
    state [S] behind [get] and [set]; [user_function] is the decorated
    function.  An exception of [user_function] goes through and nothing
    is stored. *)
Definition call (maxsize : Z)
           (get : S -> lru_cache K V) (set : lru_cache K V -> S -> S)
           (user_function : K -> S -> result V * S)
           (key : K) (st : S) : result V * S :=
  match cache_get key (entries (get st)) with
  | Some v => (Ok v, set (touch key v (get st)) st)
  | None =>
      match user_function key (set (missed (get st)) st) with
      | (Raise e, st) => (Raise e, st)
      | (Ok v, st) =>
          match cache_get key (entries (get st)) with
          | Some _ => (Ok v, st)
          | None => (Ok v, set (store maxsize key v (get st)) st)
          end
      end
  end.

(** The distinct keys of a log of uses, each at its latest use. *)
Fixpoint distinct (log : list K) : list K :=
  match log with
  | [] => []
  | k :: t => k :: filter (fun x => negb (eqb k x)) (distinct t)
  end.

(** The [maxsize] most recently used keys, the latest first. *)
Definition recent (maxsize : Z) (c : lru_cache K V) : list K :=
  firstn (Z.to_nat maxsize) (distinct (uses c)).

Definition keys (c : lru_cache K V) : list K := map fst (entries c).

End Wrapper.

End Functools.
Import Functools.

(* ================================================================= *)
(** * [requests]: what the network answers *)

Module Requests.

(** A response: its status, the text [raise_for_status] gives to its
    [HTTPError], and its body. *)
Record Response : Type := {
  status_code : Z;
  error_text : string;
  content : list Byte.byte
}.

(** [response.raise_for_status()] *)
Definition raise_for_status (r : Response) : result unit :=
  if (400 <=? status_code r) && (status_code r <? 600)
  then Raise (HTTPError (error_text r))
  else Ok tt.

End Requests.
Import Requests.

(* ================================================================= *)
(** * The application *)

Definition FETCH_CACHE_SIZE : Z := 10.
Definition HANDLE_CACHE_SIZE : Z := 10.

(** The arguments of [handle_picture]: url, width, height,
    keep_aspect_ratio. *)
Definition RenderKey : Type := (string * Z * Z * bool)%type.

Definition RenderKey_eqb (a b : RenderKey) : bool :=
  let '(u1, w1, h1, k1) := a in
  let '(u2, w2, h2, k2) := b in
  String.eqb u1 u2 && (w1 =? w2) && (h1 =? h2) && Bool.eqb k1 k2.

(** The two module-level caches and the urls requested from the network
    so far, the latest first. *)
Record State : Type := {
  fetch_cache : lru_cache string Image;
  handle_cache : lru_cache RenderKey (list Z);
  network_log : list string
}.

Definition initial_state : State :=
  {| fetch_cache := empty; handle_cache := empty; network_log := [] |}.

Definition set_fetch_cache (c : lru_cache string Image) (st : State) : State :=
  {| fetch_cache := c;
     handle_cache := handle_cache st;
     network_log := network_log st |}.

Definition set_handle_cache (c : lru_cache RenderKey (list Z)) (st : State)
  : State :=
  {| fetch_cache := fetch_cache st;
     handle_cache := c;
     network_log := network_log st |}.

(** What the endpoint gives back to the framework: a plain-text body
    (status 200), an [HTTPException] raised by the handler, or an
    exception that escapes the handler. *)
Inductive Reply : Type :=
  | PlainTextResponse (body : string)
  | HTTPException (status_code : Z) (detail : string)
  | Uncaught (e : exn).

(** [int(n * k)] with [k = num / den]: lines 22-23 and 26-27. *)
Definition scaled (n num den : Z) : result Z :=
  bind (truediv num den) (fun k => int_of_float (mul_int_float n k)).

(** The packed value of one pixel: line 52, stored in a [uint32] cell. *)
Definition pack (p : RGBA) : Z :=
  let '(r, g, b, a) := p in
  Np.uint32
    (Z.lor (Z.lor (Z.lor (Z.shiftl a 24) (Z.shiftl r 16)) (Z.shiftl g 8)) b).

(** Lines 49-53: the loop that fills [new_arr]. *)
Definition pack_pixels (img : Image) : list Z :=
  let arr := getdata img in
  let new_arr := Np.zeros (List.length arr) in
  fold_left (fun new_arr ip => Np.setitem new_arr (Z.to_nat (fst ip)) (pack (snd ip)))
            (enumerate arr) new_arr.

Definition error_message (message : string) : string := "!" ++ message.

(** ** Sample pictures and networks, for the examples *)

(** Nearest-neighbour resampling, a stand-in for a filter. *)
Definition NEAREST : Resampling :=
  fun img w h x y => getpixel img (x * width img / w) (y * height img / h).

Definition red : RGBA := (255, 0, 0, 255).

(** A 2x2 picture, every pixel opaque red. *)
Definition red_2x2 : Image :=
  {| width := 2; height := 2; getpixel := fun _ _ => red |}.

(** A 3x2 picture whose pixel at [(x, y)] is [(x, y, 0, 255)]. *)
Definition gradient_3x2 : Image :=
  {| width := 3; height := 2; getpixel := fun x y => (x, y, 0, 255) |}.

(** A 2x3 picture whose pixel at [(x, y)] is [(x, y, 0, 255)]. *)
Definition gradient_2x3 : Image :=
  {| width := 2; height := 3; getpixel := fun x y => (x, y, 0, 255) |}.

(** A host that cannot be reached. *)
Definition host_down : list string -> string -> result Response :=
  fun _ _ => Raise ConnectionError.

(** A host that answers every request with status 200. *)
Definition host_up : list string -> string -> result Response :=
  fun _ _ => Ok {| status_code := 200; error_text := ""; content := [] |}.

Definition open_red : list Byte.byte -> result Image :=
  fun _ => Ok red_2x2.


(** Eleven urls, one more than a cache holds. *)
Definition eleven_urls : list string :=
  ["a"; "b"; "c"; "d"; "e"; "f"; "g"; "h"; "i"; "j"; "k"].

Section App.

(** The network: what [requests.get] does for a url, given the urls
    requested before it. *)
Variable requests_get : list string -> string -> result Response.

(** [Image.open(BytesIO(content)).convert("RGBA")] *)
Variable image_open : list Byte.byte -> result Image.

(** [Image.Resampling.BICUBIC] *)
Variable BICUBIC : Resampling.

Definition resize_to_keep_aspect_ratio (img : Image)
           (desired_width desired_height : Z) : result Image :=
  bind (PIL.new desired_width desired_height) (fun new_img =>
  if width img >=? height img then
    bind (scaled (height img) desired_width (width img)) (fun h =>
    bind (resize BICUBIC img desired_width h) (fun img =>
    Ok (paste new_img img 0 ((desired_height - height img) / 2))))
  else
    bind (scaled (width img) desired_height (height img)) (fun w =>
    bind (resize BICUBIC img w desired_height) (fun img =>
    Ok (paste new_img img ((desired_width - width img) / 2) 0)))).

(** The body of [fetch_picture], under its decorator. *)
Definition fetch_picture_wrapped (img_url : string) (st : State)
  : result Image * State :=
  let response := requests_get (network_log st) img_url in
  let st := {| fetch_cache := fetch_cache st;
               handle_cache := handle_cache st;
               network_log := img_url :: network_log st |} in
  (bind response (fun response =>
   bind (raise_for_status response) (fun _ =>
   image_open (content response))), st).

Definition fetch_picture : string -> State -> result Image * State :=
  Functools.call String.eqb FETCH_CACHE_SIZE
                 fetch_cache set_fetch_cache fetch_picture_wrapped.

(** Lines 46-48. *)
Definition resized (img : Image) (width height : Z)
           (keep_aspect_ratio : bool) : result Image :=
  if negb keep_aspect_ratio
  then resize BICUBIC img width height
  else resize_to_keep_aspect_ratio img width height.

(** The body of [handle_picture], under its decorator. *)
Definition handle_picture_wrapped (key : RenderKey) (st : State)
  : result (list Z) * State :=
  let '(img_url, width, height, keep_aspect_ratio) := key in
  match fetch_picture img_url st with
  | (Raise e, st) => (Raise e, st)
  | (Ok img, st) =>
      (bind (resized img width height keep_aspect_ratio) (fun img =>
       Ok (pack_pixels img)), st)
  end.

Definition handle_picture (img_url : string) (width height : Z)
           (keep_aspect_ratio : bool) : State -> result (list Z) * State :=
  Functools.call RenderKey_eqb HANDLE_CACHE_SIZE
                 handle_cache set_handle_cache handle_picture_wrapped
                 (img_url, width, height, keep_aspect_ratio).

Definition get_picutre_pixels (img_url : string) (i cap width height : Z)
           (keep_aspect_ratio : bool) (st : State) : Reply * State :=
  if i <? 0 then
    (HTTPException 400 "Start index less than zero", st)
  else if cap <=? 0 then
    (HTTPException 400 "Buffer capacity is less or equal zero", st)
  else if i >=? width * height then
    (HTTPException 400 "Start index is more than width * height", st)
  else
    match handle_picture img_url width height keep_aspect_ratio st with
    | (Raise (HTTPError errh), st) =>
        (PlainTextResponse
           (error_message ("HTTP error while requesting image url: " ++ errh)),
         st)
    | (Raise Timeout, st) =>
        (PlainTextResponse
           (error_message "Timeout while requesting image url"), st)
    | (Raise ConnectionError, st) =>
        (PlainTextResponse
           (error_message "Connection error while requesting image url"), st)
    | (Raise RequestException, st) =>
        (PlainTextResponse
           (error_message "Unknown error while requesting image url"), st)
    | (Raise (UnidentifiedImageError errimg), st) =>
        (PlainTextResponse
           (error_message ("Unidentified image: " ++ errimg)), st)
    | (Raise e, st) => (Uncaught e, st)
    | (Ok img_arr, st) =>
        let buf := slice img_arr i (i + cap) in
        match mapM (fun pixel => Np.base_repr pixel 36) buf with
        | Ok tokens => (PlainTextResponse (join " " tokens), st)
        | Raise e => (Uncaught e, st)
        end
    end.

(** The states the service can be in: the initial one, and the one
    after any request in such a state. *)
Inductive reachable : State -> Prop :=
| reachable_initial : reachable initial_state
| reachable_request st img_url i cap width height keep_aspect_ratio :
    reachable st ->
    reachable (snd (get_picutre_pixels img_url i cap width height
                                       keep_aspect_ratio st)).

(** The value of a list of digits, the least significant first. *)
Definition digits_value (ds : list Z) : Z :=
  fold_right (fun d v => d + 36 * v) 0 ds.

(** A numeral in base 36 for [n]: it reads back as [n], it is made of
    the characters [0-9A-Z], and it does not start with a zero unless
    it is the numeral "0". *)
Definition base36_numeral (n : Z) (s : string) : Prop :=
  Np.int s 36 = Some n
  /\ Forall (fun c => In c (list_ascii_of_string Np.digits))
            (list_ascii_of_string s)
  /\ (s = "0" \/ exists c t, s = String c t /\ c <> "0"%char).

(** A stored sequence is the packing of some source picture resized for
    its key. *)
Definition rendered (key : RenderKey) (arr : list Z) : Prop :=
  let '(_, width, height, keep_aspect_ratio) := key in
  exists src img,
    resized src width height keep_aspect_ratio = Ok img
    /\ arr = pack_pixels img.

(** The invariant of the service: each cache holds the most recently
    used keys, in the order of their last use and no more than its
    size, and every stored sequence was rendered for its key. *)
Definition coherent (st : State) : Prop :=
  keys (fetch_cache st) = recent String.eqb FETCH_CACHE_SIZE (fetch_cache st)
  /\ keys (handle_cache st)
     = recent RenderKey_eqb HANDLE_CACHE_SIZE (handle_cache st)
  /\ Forall (fun kv => rendered (fst kv) (snd kv)) (entries (handle_cache st)).


(** The state after one request, for the first pixel of a 2x2 target,
    per url of a list. *)
Definition after_requests (urls : list string) : State :=
  fold_left (fun st img_url =>
               snd (get_picutre_pixels img_url 0 1 2 2 false st))
            urls initial_state.

(** [t] is a nearest integer to the quotient [a / b], whichever way a
    tie is broken: what "round(a / b)" stands for. *)
Definition nearest_to_quotient (t a b : Z) : Prop :=
  2 * Z.abs (t * b - a) <= b.

(** The counters of [cache_info()] add up as the calls are made: the
    fetch cache missed once per network request, and [fetch_picture] was
    called once per miss of the render cache. *)
Definition accounted (st : State) : Prop :=
  misses (fetch_cache st) = Z.of_nat (List.length (network_log st))
  /\ hits (fetch_cache st) + misses (fetch_cache st) = misses (handle_cache st)
  /\ 0 <= hits (fetch_cache st)
  /\ 0 <= hits (handle_cache st).

(** Whether a key has an entry in a cache. *)
Definition resident {K V} (eqb : K -> K -> bool) (key : K)
           (c : lru_cache K V) : bool :=
  match cache_get eqb key (entries c) with
  | Some _ => true
  | None => false
  end.

(** The three parameter checks of the endpoint, all passed. *)
Definition valid_window (i cap width height : Z) : bool :=
  (0 <=? i) && (0 <? cap) && (i <? width * height).

(* ================================================================= *)
(** * The Pixel Packer *)

Lemma lor_add_disjoint (x y n : Z) :
  0 <= n -> x mod 2 ^ n = 0 -> 0 <= y < 2 ^ n -> Z.lor x y = x + y.
Proof.
  intros Hn Hx Hy.
  assert (Hland : Z.land x y = 0).
  { apply Z.bits_inj'. intros m Hm.
    rewrite Z.land_spec, Z.bits_0.
    destruct (Z.lt_ge_cases m n) as [Hlt | Hge].
    - apply Z.div_exact in Hx; [| apply Z.pow_nonzero; lia].
      rewrite Hx, Z.mul_comm, Z.mul_pow2_bits_low by lia. reflexivity.
    - destruct (Z.eq_dec y 0) as [-> | Hy0].
      + rewrite Z.bits_0. apply andb_false_r.
      + rewrite (Z.bits_above_log2 y m), andb_false_r; try lia.
        apply Z.log2_lt_pow2; try lia.
        apply Z.lt_le_trans with (2 ^ n); [lia |].
        apply Z.pow_le_mono_r; lia. }
  pose proof (Z.add_lor_land x y) as H. lia.
Qed.

Lemma pack_sum (r g b a : Z) :
  0 <= r < 256 -> 0 <= g < 256 -> 0 <= b < 256 -> 0 <= a < 256 ->
  Z.lor (Z.lor (Z.lor (Z.shiftl a 24) (Z.shiftl r 16)) (Z.shiftl g 8)) b
  = a * 2 ^ 24 + r * 2 ^ 16 + g * 2 ^ 8 + b.
Proof.
  intros Hr Hg Hb Ha.
  rewrite !Z.shiftl_mul_pow2 by lia.
  assert (Hdiv : forall k n, 0 <= n -> (k * 2 ^ n) mod 2 ^ n = 0).
  { intros k n Hn. apply Z.mod_mul, Z.pow_nonzero; lia. }
  rewrite (lor_add_disjoint (a * 2 ^ 24) (r * 2 ^ 16) 24);
    [| lia | apply Hdiv; lia | lia].
  rewrite (lor_add_disjoint _ (g * 2 ^ 8) 16); [| lia | | lia].
  - rewrite (lor_add_disjoint _ b 8); [reflexivity | lia | | lia].
    replace (a * 2 ^ 24 + r * 2 ^ 16 + g * 2 ^ 8)
      with ((a * 65536 + r * 256 + g) * 2 ^ 8) by ring.
    apply Hdiv; lia.
  - replace (a * 2 ^ 24 + r * 2 ^ 16)
      with ((a * 256 + r) * 2 ^ 16) by ring.
    apply Hdiv; lia.
Qed.

(** C3. For channels in 0..255 the packed value is
    (a<<24)|(r<<16)|(g<<8)|b, it fits in 32 bits (the uint32 cell keeps
    it as it is), and the four shifted and masked projections give back
    a, r, g and b. *)
Theorem pack_round_trip (r g b a : Z) :
  0 <= r <= 255 -> 0 <= g <= 255 -> 0 <= b <= 255 -> 0 <= a <= 255 ->
  let v := pack (r, g, b, a) in
  v = Z.lor (Z.lor (Z.lor (Z.shiftl a 24) (Z.shiftl r 16)) (Z.shiftl g 8)) b
  /\ 0 <= v < 2 ^ 32
  /\ Z.land (Z.shiftr v 24) 255 = a
  /\ Z.land (Z.shiftr v 16) 255 = r
  /\ Z.land (Z.shiftr v 8) 255 = g
  /\ Z.land v 255 = b.
Proof.
  intros Hr Hg Hb Ha. cbv zeta. unfold pack, Np.uint32.
  rewrite pack_sum by lia.
  assert (Hv : 0 <= a * 2 ^ 24 + r * 2 ^ 16 + g * 2 ^ 8 + b < 2 ^ 32) by lia.
  rewrite Z.mod_small by exact Hv.
  change 255 with (Z.ones 8).
  rewrite !Z.land_ones, !Z.shiftr_div_pow2 by lia.
  change (2 ^ 32) with 4294967296 in *.
  change (2 ^ 24) with 16777216 in *.
  change (2 ^ 16) with 65536 in *.
  change (2 ^ 8) with 256 in *.
  repeat split; try lia.
  all: Z.div_mod_to_equations; lia.
Qed.

(* ================================================================= *)
(** * Binary64 arithmetic of the scale factor

    [scaled n num den] is [int(n * (num / den))]: a division and a
    product, each rounded to the nearest binary64, then a truncation.
    The lemmas below follow the library's rounding through both
    operations and bound the result by the exact quotient. *)

Lemma Zdigits2_log2 (m : Z) : 0 < m -> Zdigits2 m = Z.log2 m + 1.
Proof.
  destruct m as [| p | p]; try lia. intros _. cbn [Zdigits2].
  assert (H : forall q, digits2_pos q = Pos.size q).
  { induction q as [q IH | q IH |]; cbn; congruence. }
  rewrite H. destruct p; cbn [Z.log2 Pos.size]; lia.
Qed.

Lemma Zdigits2_bounds (m : Z) :
  0 < m -> 2 ^ (Zdigits2 m - 1) <= m < 2 ^ Zdigits2 m.
Proof.
  intros Hm. rewrite Zdigits2_log2 by exact Hm.
  replace (Z.log2 m + 1 - 1) with (Z.log2 m) by lia.
  replace (Z.log2 m + 1) with (Z.succ (Z.log2 m)) by lia.
  apply Z.log2_spec. exact Hm.
Qed.

Lemma Zdigits2_unique (m d : Z) :
  0 < d -> 2 ^ (d - 1) <= m < 2 ^ d -> Zdigits2 m = d.
Proof.
  intros Hd Hm.
  assert (0 < m) by (pose proof (Z.pow_pos_nonneg 2 (d - 1)); lia).
  rewrite Zdigits2_log2 by lia.
  rewrite (Z.log2_unique m (d - 1)); try lia.
  replace (Z.succ (d - 1)) with d by lia. exact Hm.
Qed.

Lemma shr_1_m (mrs : shr_record) :
  0 <= shr_m mrs -> shr_m (shr_1 mrs) = shr_m mrs / 2.
Proof.
  destruct mrs as [m r s]. cbn [shr_m]. intros Hm.
  destruct m as [| p | p]; [reflexivity | | lia].
  rewrite <- Z.div2_div. destruct p; reflexivity.
Qed.

Lemma iter_pos_shr_m (p : positive) :
  forall mrs, 0 <= shr_m mrs ->
              shr_m (iter_pos shr_1 p mrs) = shr_m mrs / 2 ^ Zpos p.
Proof.
  induction p as [p IH | p IH |]; intros mrs Hm; cbn [iter_pos].
  - assert (H1 : 0 <= shr_m (shr_1 mrs)).
    { rewrite shr_1_m by exact Hm. apply Z.div_pos; lia. }
    assert (H2 : 0 <= shr_m (iter_pos shr_1 p (shr_1 mrs))).
    { rewrite IH by exact H1. apply Z.div_pos; [exact H1 |].
      apply Z.pow_pos_nonneg; lia. }
    rewrite IH, IH, shr_1_m by assumption.
    rewrite !Z.div_div by (try apply Z.pow_pos_nonneg; lia).
    f_equal. replace (Z.pos p~1) with (1 + Z.pos p + Z.pos p) by lia.
    rewrite !Z.pow_add_r by lia. change (2 ^ 1) with 2. ring.
  - assert (H1 : 0 <= shr_m (iter_pos shr_1 p mrs)).
    { rewrite IH by exact Hm. apply Z.div_pos; [exact Hm |].
      apply Z.pow_pos_nonneg; lia. }
    rewrite IH, IH by assumption.
    rewrite Z.div_div by (try apply Z.pow_pos_nonneg; lia).
    f_equal. replace (Z.pos p~0) with (Z.pos p + Z.pos p) by lia.
    rewrite Z.pow_add_r by lia. reflexivity.
  - rewrite shr_1_m by exact Hm. reflexivity.
Qed.

Lemma shr_spec (mrs : shr_record) (e n : Z) :
  0 <= shr_m mrs -> 0 <= n ->
  shr_m (fst (shr mrs e n)) = shr_m mrs / 2 ^ n /\ snd (shr mrs e n) = e + n.
Proof.
  intros Hm Hn. unfold shr. destruct n as [| p | p]; [| | lia].
  - cbn [fst snd]. rewrite Z.div_1_r. split; [reflexivity | lia].
  - cbn [fst snd]. split; [apply iter_pos_shr_m; exact Hm | reflexivity].
Qed.

Lemma shr_m_of_loc (m : Z) (l : location) : shr_m (shr_record_of_loc m l) = m.
Proof. destruct l as [| []]; reflexivity. Qed.

Lemma round_nearest_even_range (m : Z) (l : location) :
  m <= round_nearest_even m l <= m + 1.
Proof.
  unfold round_nearest_even. destruct l as [| []]; try lia.
  destruct (Z.even m); lia.
Qed.

Lemma fexp_normal (x : Z) : -1021 <= x -> fexp 53 1024 x = x - 53.
Proof. intros Hx. unfold fexp, emin. lia. Qed.

Lemma binary_round_aux_bounds (m e : Z) (l : location) :
  2 ^ 52 <= m -> -1000 <= e -> Zdigits2 m + e <= 1000 ->
  exists m2 e2,
    binary_round_aux 53 1024 false m e l = S754_finite false m2 e2
    /\ 2 ^ 52 <= Zpos m2 < 2 ^ 53
    /\ e + (Zdigits2 m - 53) <= e2 <= e + (Zdigits2 m - 53) + 1
    /\ Zpos m2 * 2 ^ (e2 - e) * 2 ^ 52 <= m * (2 ^ 52 + 1)
    /\ m * (2 ^ 52 - 1) <= Zpos m2 * 2 ^ (e2 - e) * 2 ^ 52.
Proof.
  intros Hm He Hde.
  assert (Hm0 : 0 < m) by lia.
  pose proof (Zdigits2_bounds m Hm0) as Hd.
  set (d := Zdigits2 m) in *.
  assert (Hd53 : 53 <= d).
  { destruct (Z.lt_ge_cases d 53) as [Hlt | Hge]; [| exact Hge].
    assert (2 ^ d <= 2 ^ 52) by (apply Z.pow_le_mono_r; lia). lia. }
  set (n := d - 53).
  assert (Hpn : 0 < 2 ^ n) by (apply Z.pow_pos_nonneg; lia).
  assert (Hdn1 : 2 ^ (d - 1) = 2 ^ 52 * 2 ^ n).
  { replace (d - 1) with (52 + n) by lia. apply Z.pow_add_r; lia. }
  assert (Hdn : 2 ^ d = 2 ^ 53 * 2 ^ n).
  { replace d with (53 + n) at 1 by lia. apply Z.pow_add_r; lia. }
  rewrite Hdn1, Hdn in Hd.
  unfold binary_round_aux.
  destruct (shr_fexp 53 1024 m e l) as [mrs' e'] eqn:E1.
  assert (H1 : shr_m mrs' = m / 2 ^ n /\ e' = e + n).
  { unfold shr_fexp in E1. fold d in E1.
    rewrite fexp_normal in E1 by lia.
    replace (d + e - 53 - e) with n in E1 by lia.
    pose proof (shr_spec (shr_record_of_loc m l) e n) as Hs.
    rewrite E1, shr_m_of_loc in Hs. cbn [fst snd] in Hs. apply Hs; lia. }
  destruct H1 as [Hm' ->].
  assert (Hm'r : 2 ^ 52 <= shr_m mrs' < 2 ^ 53).
  { rewrite Hm'. split.
    - apply Z.div_le_lower_bound; lia.
    - apply Z.div_lt_upper_bound; lia. }
  assert (Hm'm : shr_m mrs' * 2 ^ n <= m < (shr_m mrs' + 1) * 2 ^ n).
  { rewrite Hm'. pose proof (Z.div_mod m (2 ^ n)).
    pose proof (Z.mod_pos_bound m (2 ^ n) Hpn). lia. }
  pose proof (round_nearest_even_range (shr_m mrs') (loc_of_shr_record mrs'))
    as Hm1.
  set (m1 := round_nearest_even (shr_m mrs') (loc_of_shr_record mrs')) in *.
  destruct (shr_fexp 53 1024 m1 (e + n) loc_Exact) as [mrs'' e''] eqn:E2.
  assert (H2 : exists n2, (n2 = 0 \/ n2 = 1)
                          /\ shr_m mrs'' * 2 ^ n2 = m1
                          /\ 2 ^ 52 <= shr_m mrs'' < 2 ^ 53
                          /\ e'' = e + n + n2).
  { unfold shr_fexp in E2.
    pose proof (shr_spec (shr_record_of_loc m1 loc_Exact) (e + n)) as Hs.
    rewrite shr_m_of_loc in Hs.
    destruct (Z.eq_dec m1 (2 ^ 53)) as [Heq | Hne].
    - exists 1. rewrite (Zdigits2_unique m1 54) in E2 by (rewrite ?Heq; lia).
      rewrite fexp_normal in E2 by lia.
      replace (54 + (e + n) - 53 - (e + n)) with 1 in E2 by lia.
      specialize (Hs 1). rewrite E2 in Hs. cbn [fst snd] in Hs.
      destruct Hs as [Hs1 Hs2]; [lia | lia |].
      rewrite Hs1, Hs2, Heq. repeat split; try lia; reflexivity.
    - exists 0. rewrite (Zdigits2_unique m1 53) in E2 by lia.
      rewrite fexp_normal in E2 by lia.
      replace (53 + (e + n) - 53 - (e + n)) with 0 in E2 by lia.
      specialize (Hs 0). rewrite E2 in Hs. cbn [fst snd] in Hs.
      destruct Hs as [Hs1 Hs2]; [lia | lia |].
      rewrite Hs1, Hs2, Z.div_1_r. repeat split; lia. }
  destruct H2 as (n2 & Hn2 & Hm2 & Hm2r & ->).
  destruct (shr_m mrs'') as [| m2 | m2] eqn:Em2; [lia | | lia].
  destruct (Z.leb_spec (e + n + n2) (1024 - 53)) as [_ | Hov]; [| lia].
  exists m2, (e + n + n2).
  split; [reflexivity |]. split; [exact Hm2r |]. split; [fold n; lia |].
  replace (e + n + n2 - e) with (n2 + n) by lia.
  rewrite Z.pow_add_r by lia.
  replace (Z.pos m2 * (2 ^ n2 * 2 ^ n)) with (m1 * 2 ^ n)
    by (rewrite <- Hm2; ring).
  split; nia.
Qed.

Lemma binary_round_aux_exact (m e : Z) :
  2 ^ 52 <= m < 2 ^ 53 -> -1000 <= e <= 900 ->
  binary_round_aux 53 1024 false m e loc_Exact
  = S754_finite false (Z.to_pos m) e.
Proof.
  intros Hm He. unfold binary_round_aux, shr_fexp.
  rewrite (Zdigits2_unique m 53) by lia.
  rewrite fexp_normal by lia.
  replace (53 + e - 53 - e) with 0 by lia.
  cbn [shr shr_record_of_loc shr_m loc_of_shr_record round_nearest_even].
  rewrite (Zdigits2_unique m 53) by lia.
  rewrite fexp_normal by lia.
  replace (53 + e - 53 - e) with 0 by lia.
  cbn [shr shr_record_of_loc shr_m].
  destruct m as [| p | p]; [lia | | lia].
  destruct (Z.leb_spec e (1024 - 53)); [reflexivity | lia].
Qed.

Lemma iter_xO (p q : positive) :
  Zpos (Pos.iter xO p q) = Zpos p * 2 ^ Zpos q.
Proof.
  induction q as [| q IH] using Pos.peano_ind.
  - cbn [Pos.iter]. rewrite Pos2Z.inj_xO. change (2 ^ 1) with 2. ring.
  - rewrite Pos.iter_succ, Pos2Z.inj_xO, IH, Pos2Z.inj_succ, Z.pow_succ_r by lia.
    ring.
Qed.

(** [float(n)] for [0 < n < 2^53] is [n] itself, with a mantissa of 53
    bits. *)
Lemma float_of_int_normal (n : Z) :
  0 < n < 2 ^ 53 ->
  exists m e,
    float_of_int n = S754_finite false m e
    /\ 2 ^ 52 <= Zpos m < 2 ^ 53
    /\ -52 <= e <= 0
    /\ Zpos m = n * 2 ^ (- e).
Proof.
  intros Hn. destruct n as [| p | p]; [lia | | lia].
  unfold float_of_int, binary_normalize, binary_round, prec, emax.
  pose proof (Zdigits2_bounds (Zpos p) ltac:(lia)) as Hd.
  cbn [Zdigits2] in Hd. set (d := Zpos (digits2_pos p)) in *.
  assert (Hd1 : 1 <= d) by (unfold d; lia).
  assert (Hd53 : d <= 53).
  { destruct (Z.le_gt_cases d 53) as [Hle | Hgt]; [exact Hle |].
    assert (2 ^ 53 <= 2 ^ (d - 1)) by (apply Z.pow_le_mono_r; lia). lia. }
  rewrite fexp_normal by lia.
  assert (Hal : exists mz, shl_align p 0 (d + 0 - 53) = (mz, d - 53)
                           /\ Zpos mz = Zpos p * 2 ^ (53 - d)).
  { unfold shl_align. destruct (d + 0 - 53 - 0) as [| q | q] eqn:E; [| lia |].
    - exists p. replace (53 - d) with 0 by lia. split; [f_equal; lia |].
      rewrite Z.mul_1_r. reflexivity.
    - exists (Pos.iter xO p q). split; [f_equal; lia |].
      rewrite iter_xO. f_equal. f_equal. lia. }
  destruct Hal as (mz & -> & Hmz).
  assert (Hp : 2 ^ 52 <= Zpos mz < 2 ^ 53).
  { rewrite Hmz.
    assert (H52 : 2 ^ 52 = 2 ^ (d - 1) * 2 ^ (53 - d)).
    { rewrite <- Z.pow_add_r by lia. f_equal. lia. }
    assert (H53 : 2 ^ 53 = 2 ^ d * 2 ^ (53 - d)).
    { rewrite <- Z.pow_add_r by lia. f_equal. lia. }
    assert (0 < 2 ^ (53 - d)) by (apply Z.pow_pos_nonneg; lia).
    rewrite H52, H53. split; nia. }
  rewrite binary_round_aux_exact by lia.
  exists mz, (d - 53). rewrite Pos2Z.id.
  split; [reflexivity |]. split; [exact Hp |]. split; [lia |].
  rewrite Hmz. f_equal. f_equal. lia.
Qed.

Lemma truediv_bounds (num den : Z) :
  0 < num < 2 ^ 53 -> 0 < den < 2 ^ 53 ->
  exists mk ek,
    truediv num den = Ok (S754_finite false mk ek)
    /\ 2 ^ 52 <= Zpos mk < 2 ^ 53
    /\ -105 <= ek <= 1
    /\ Zpos mk * 2 ^ (ek + 105) * den * 2 ^ 52 <= num * 2 ^ 105 * (2 ^ 52 + 1)
    /\ num * 2 ^ 105 * ((2 ^ 52 - 1) * (2 ^ 52 - 1))
       <= Zpos mk * 2 ^ (ek + 105) * den * 2 ^ 104.
Proof.
  intros Hnum Hden.
  destruct (float_of_int_normal num Hnum) as (m1 & e1 & E1 & Hm1 & He1 & Hv1).
  destruct (float_of_int_normal den Hden) as (m2 & e2 & E2 & Hm2 & He2 & Hv2).
  unfold truediv. destruct (Z.eqb_spec den 0); [lia |].
  rewrite E1, E2. unfold prec, emax. cbn [SFdiv xorb].
  unfold SFdiv_core_binary.
  rewrite (Zdigits2_unique (Zpos m1) 53), (Zdigits2_unique (Zpos m2) 53) by lia.
  rewrite fexp_normal by lia.
  rewrite Z.min_l by lia.
  replace (e1 - e2 - (53 + e1 - (53 + e2) - 53)) with 53 by lia.
  cbv iota.
  set (e' := 53 + e1 - (53 + e2) - 53).
  pose proof (Z_div_mod (Z.shiftl (Zpos m1) 53) (Zpos m2) ltac:(lia)) as Hqr.
  change (IntDef.Z.div_eucl (IntDef.Z.shiftl (Z.pos m1) 53) (Z.pos m2))
    with (Z.div_eucl (Z.shiftl (Z.pos m1) 53) (Z.pos m2)).
  destruct (Z.div_eucl (Z.shiftl (Z.pos m1) 53) (Z.pos m2)) as [q r].
  rewrite Z.shiftl_mul_pow2 in Hqr by lia.
  destruct Hqr as [Hq Hr].
  assert (Hq52 : 2 ^ 52 <= q) by nia.
  assert (Hq54 : q < 2 ^ 54) by nia.
  assert (Hdq : 53 <= Zdigits2 q <= 54).
  { pose proof (Zdigits2_bounds q ltac:(lia)) as Hb.
    split.
    - destruct (Z.lt_ge_cases (Zdigits2 q) 53) as [Hlt | Hge]; [| exact Hge].
      assert (2 ^ Zdigits2 q <= 2 ^ 52) by (apply Z.pow_le_mono_r; lia). lia.
    - destruct (Z.le_gt_cases (Zdigits2 q) 54) as [Hle | Hgt]; [exact Hle |].
      assert (2 ^ 54 <= 2 ^ (Zdigits2 q - 1)) by (apply Z.pow_le_mono_r; lia).
      lia. }
  destruct (binary_round_aux_bounds q e' (new_location (Zpos m2) r))
    as (mk & ek & Ek & Hmk & Hek & Hup & Hlo); [lia | unfold e'; lia | unfold e'; lia |].
  exists mk, ek. rewrite Ek.
  split; [reflexivity |]. split; [exact Hmk |]. split; [unfold e' in Hek; lia |].
  assert (HW : 2 ^ (ek + 105) = 2 ^ (ek - e') * 2 ^ (52 + e1) * 2 ^ (- e2)).
  { rewrite <- !Z.pow_add_r by (unfold e' in *; lia). f_equal. unfold e'. lia. }
  assert (HXY : 2 ^ (- e1) * 2 ^ (52 + e1) = 2 ^ 52).
  { rewrite <- Z.pow_add_r by lia. f_equal. lia. }
  assert (HX1 : 0 < 2 ^ (- e1)) by (apply Z.pow_pos_nonneg; lia).
  assert (HY1 : 0 < 2 ^ (52 + e1)) by (apply Z.pow_pos_nonneg; lia).
  assert (HX2 : 0 < 2 ^ (- e2)) by (apply Z.pow_pos_nonneg; lia).
  assert (HWp : 0 < 2 ^ (ek - e')) by (apply Z.pow_pos_nonneg; lia).
  rewrite HW. clear HW.
  set (X1 := 2 ^ (- e1)) in *. set (Y1 := 2 ^ (52 + e1)) in *.
  set (X2 := 2 ^ (- e2)) in *. set (W := 2 ^ (ek - e')) in *.
  clearbody X1 Y1 X2 W. clear Ek E1 E2.
  change (2 ^ 104) with (2 ^ 52 * 2 ^ 52).
  change (2 ^ 105) with (2 ^ 52 * 2 ^ 53).
  change (2 ^ 54) with (2 * 2 ^ 53) in *.
  set (C := 2 ^ 52) in *. 
  assert (HC : 0 < C) by (unfold C; lia).
  assert (HD : 2 ^ 53 = 2 * C) by reflexivity.
  rewrite HD in *. clearbody C.
  set (M1 := Zpos m1) in *. set (M2 := Zpos m2) in *. set (MK := Zpos mk) in *.
  clearbody M1 M2 MK.
  assert (S2 : q * M2 <= M1 * (2 * C)) by lia.
  assert (S2' : M1 * (2 * C) * (C - 1) <= q * M2 * C) by nia.
  split.
  - assert (T1 : MK * W * C * (M2 * Y1) <= q * (C + 1) * (M2 * Y1)).
    { apply Z.mul_le_mono_nonneg_r; [nia | exact Hup]. }
    assert (T2 : q * (C + 1) * (M2 * Y1) <= M1 * (2 * C) * ((C + 1) * Y1)).
    { replace (q * (C + 1) * (M2 * Y1)) with (q * M2 * ((C + 1) * Y1)) by ring.
      apply Z.mul_le_mono_nonneg_r; [nia | exact S2]. }
    replace (MK * (W * Y1 * X2) * den * C) with (MK * W * C * (M2 * Y1))
      by (rewrite Hv2; ring).
    replace (num * (C * (2 * C)) * (C + 1))
      with (M1 * (2 * C) * ((C + 1) * Y1))
      by (rewrite Hv1; rewrite <- HXY; ring).
    lia.
  - assert (T1 : q * (C - 1) * (M2 * C * Y1) <= MK * W * C * (M2 * C * Y1)).
    { apply Z.mul_le_mono_nonneg_r; [nia | exact Hlo]. }
    assert (T2 : M1 * (2 * C) * (C - 1) * ((C - 1) * Y1)
                 <= q * M2 * C * ((C - 1) * Y1)).
    { apply Z.mul_le_mono_nonneg_r; [nia | exact S2']. }
    replace (MK * (W * Y1 * X2) * den * (C * C))
      with (MK * W * C * (M2 * C * Y1)) by (rewrite Hv2; ring).
    replace (num * (C * (2 * C)) * ((C - 1) * (C - 1)))
      with (M1 * (2 * C) * (C - 1) * ((C - 1) * Y1))
      by (rewrite Hv1; rewrite <- HXY; ring).
    replace (q * (C - 1) * (M2 * C * Y1))
      with (q * M2 * C * ((C - 1) * Y1)) in T1 by ring.
    lia.
Qed.

Lemma int_of_float_trunc (m : positive) (e : Z) :
  -105 <= e ->
  exists t,
    int_of_float (S754_finite false m e) = Ok t
    /\ t * 2 ^ 105 <= Zpos m * 2 ^ (e + 105) < (t + 1) * 2 ^ 105.
Proof.
  intros He. unfold int_of_float.
  destruct e as [| p | p].
  - exists (Zpos m). rewrite Z.shiftl_0_r. split; [reflexivity |].
    change (0 + 105) with 105. lia.
  - exists (Zpos m * 2 ^ Zpos p). rewrite Z.shiftl_mul_pow2 by lia.
    split; [reflexivity |]. rewrite Z.pow_add_r by lia. nia.
  - exists (Zpos m / 2 ^ Zpos p). rewrite Z.shiftr_div_pow2 by lia.
    split; [reflexivity |].
    assert (Hp : 0 < 2 ^ Zpos p) by (apply Z.pow_pos_nonneg; lia).
    assert (Hq : 0 < 2 ^ (Z.neg p + 105)) by (apply Z.pow_pos_nonneg; lia).
    assert (H105 : 2 ^ 105 = 2 ^ Zpos p * 2 ^ (Z.neg p + 105)).
    { rewrite <- Z.pow_add_r by lia. f_equal. lia. }
    pose proof (Z.div_mod (Zpos m) (2 ^ Zpos p)) as Hdm.
    pose proof (Z.mod_pos_bound (Zpos m) (2 ^ Zpos p) Hp) as Hmod.
    rewrite H105. set (A := 2 ^ Zpos p) in *. set (B := 2 ^ (Z.neg p + 105)) in *.
    clearbody A B. nia.
Qed.


Ltac nonneg := repeat apply Z.mul_nonneg_nonneg; lia.


Lemma trunc_upper (t den P0 C A X : Z) :
  0 < den -> 0 < C -> 0 < A -> 0 < P0 -> 4 * P0 < C ->
  t * A <= X ->
  X * den * (C * C) <= P0 * A * ((C + 1) * (C + 1)) ->
  t * den <= P0.
Proof.
  intros Hden HC HA HP0 HP HtX HX.
  assert (G0 : t * A * (den * (C * C)) <= X * (den * (C * C))).
  { apply Z.mul_le_mono_nonneg_r; [nonneg | exact HtX]. }
  assert (G1 : t * den * (C * C) * A <= P0 * ((C + 1) * (C + 1)) * A).
  { replace (t * den * (C * C) * A) with (t * A * (den * (C * C))) by ring.
    replace (P0 * ((C + 1) * (C + 1)) * A)
      with (P0 * A * ((C + 1) * (C + 1))) by ring.
    replace (X * (den * (C * C))) with (X * den * (C * C)) in G0 by ring.
    lia. }
  apply Z.mul_le_mono_pos_r in G1; [| exact HA].
  assert (G3 : P0 * ((C + 1) * (C + 1)) < (P0 + 1) * (C * C)).
  { replace (P0 * ((C + 1) * (C + 1)))
      with (P0 * (C * C) + (2 * P0 * C + P0)) by ring.
    replace ((P0 + 1) * (C * C)) with (P0 * (C * C) + C * C) by ring.
    assert (2 * P0 * C + P0 < C * C); [| lia].
    assert (4 * P0 * C < C * C) by (apply Z.mul_lt_mono_pos_r; lia).
    assert (P0 * 1 <= P0 * C) by (apply Z.mul_le_mono_nonneg_l; lia).
    lia. }
  assert (G4 : t * den * (C * C) < (P0 + 1) * (C * C)) by lia.
  apply Z.mul_lt_mono_pos_r in G4; [lia |].
  apply Z.mul_pos_pos; lia.
Qed.

Lemma trunc_lower (t den P0 C A X : Z) :
  0 < den -> 4 <= C -> 0 < A -> 0 < P0 -> 4 * P0 < C ->
  X < (t + 1) * A ->
  P0 * A * ((C - 1) * (C - 1) * (C - 1)) <= X * den * (C * C * C) ->
  P0 < (t + 2) * den.
Proof.
  intros Hden HC HA HP0 HP HtX HX.
  assert (HCCC : 0 < C * C * C) by (repeat apply Z.mul_pos_pos; lia).
  assert (G0 : X * (den * (C * C * C)) < (t + 1) * A * (den * (C * C * C))).
  { apply Z.mul_lt_mono_pos_r; [apply Z.mul_pos_pos; lia | exact HtX]. }
  assert (G1 : P0 * ((C - 1) * (C - 1) * (C - 1)) * A
               < (t + 1) * den * (C * C * C) * A).
  { replace (P0 * ((C - 1) * (C - 1) * (C - 1)) * A)
      with (P0 * A * ((C - 1) * (C - 1) * (C - 1))) by ring.
    replace ((t + 1) * den * (C * C * C) * A)
      with ((t + 1) * A * (den * (C * C * C))) by ring.
    replace (X * (den * (C * C * C))) with (X * den * (C * C * C)) in G0 by ring.
    lia. }
  apply Z.mul_lt_mono_pos_r in G1; [| exact HA].
  assert (G3 : (P0 - 1) * (C * C * C) <= P0 * ((C - 1) * (C - 1) * (C - 1))).
  { replace (P0 * ((C - 1) * (C - 1) * (C - 1)))
      with (P0 * (C * C * C) - (3 * P0 * (C * C) - P0 * (3 * C - 1))) by ring.
    replace ((P0 - 1) * (C * C * C)) with (P0 * (C * C * C) - C * (C * C)) by ring.
    assert (3 * P0 * (C * C) <= C * (C * C)).
    { apply Z.mul_le_mono_nonneg_r; [nonneg | lia]. }
    assert (0 <= P0 * (3 * C - 1)) by nonneg.
    lia. }
  assert (G4 : (P0 - 1) * (C * C * C) < (t + 1) * den * (C * C * C)) by lia.
  apply Z.mul_lt_mono_pos_r in G4; [| exact HCCC].
  replace ((t + 2) * den) with ((t + 1) * den + den) by ring. lia.
Qed.

Lemma scaled_bounds (n num den : Z) :
  0 < n < 2 ^ 53 -> 0 < num < 2 ^ 53 -> 0 < den < 2 ^ 53 ->
  n * num < 2 ^ 50 ->
  exists t, scaled n num den = Ok t
            /\ 0 <= t
            /\ n * num / den - 1 <= t <= n * num / den.
Proof.
  intros Hn Hnum Hden Hprod.
  destruct (truediv_bounds num den Hnum Hden)
    as (mk & ek & Ek & Hmk & Hek & Hkup & Hklo).
  destruct (float_of_int_normal n Hn) as (mn & en & En & Hmn & Hen & Hvn).
  unfold scaled. rewrite Ek. cbn [bind]. unfold mul_int_float.
  rewrite En. unfold prec, emax. cbn [SFmul xorb].
  rewrite Pos2Z.inj_mul.
  set (P := Zpos mn * Zpos mk).
  assert (HP : 2 ^ 104 <= P < 2 ^ 106).
  { unfold P. change (2 ^ 104) with (2 ^ 52 * 2 ^ 52).
    change (2 ^ 106) with (2 ^ 53 * 2 ^ 53). split.
    - apply Z.mul_le_mono_nonneg; lia.
    - apply Z.mul_lt_mono_nonneg; lia. }
  assert (HdP : 105 <= Zdigits2 P <= 106).
  { pose proof (Zdigits2_bounds P ltac:(lia)) as Hb.
    split.
    - destruct (Z.lt_ge_cases (Zdigits2 P) 105) as [Hlt | Hge]; [| exact Hge].
      assert (2 ^ Zdigits2 P <= 2 ^ 104) by (apply Z.pow_le_mono_r; lia). lia.
    - destruct (Z.le_gt_cases (Zdigits2 P) 106) as [Hle | Hgt]; [exact Hle |].
      assert (2 ^ 106 <= 2 ^ (Zdigits2 P - 1)) by (apply Z.pow_le_mono_r; lia).
      lia. }
  destruct (binary_round_aux_bounds P (en + ek) loc_Exact)
    as (mr & er & Er & Hmr & Her & Hrup & Hrlo); [lia | lia | lia |].
  rewrite Er.
  destruct (int_of_float_trunc mr er ltac:(lia)) as (t & Et & Ht).
  exists t. split; [exact Et |].
  assert (HW : 2 ^ (er + 105) * 2 ^ (- en)
               = 2 ^ (er - (en + ek)) * 2 ^ (ek + 105)).
  { rewrite <- !Z.pow_add_r by lia. f_equal. lia. }
  assert (HXn : 0 < 2 ^ (- en)) by (apply Z.pow_pos_nonneg; lia).
  assert (HWr : 0 < 2 ^ (er - (en + ek))) by (apply Z.pow_pos_nonneg; lia).
  assert (HK : 0 < 2 ^ (ek + 105)) by (apply Z.pow_pos_nonneg; lia).
  assert (HR : 0 < 2 ^ (er + 105)) by (apply Z.pow_pos_nonneg; lia).
  set (Xn := 2 ^ (- en)) in *. set (Wr := 2 ^ (er - (en + ek))) in *.
  set (K := 2 ^ (ek + 105)) in *. set (R := 2 ^ (er + 105)) in *.
  clearbody Xn Wr K R. clear Er Et En Ek.
  change (2 ^ 104) with (2 ^ 52 * 2 ^ 52) in *.
  change (2 ^ 105) with (2 ^ 52 * (2 * 2 ^ 52)) in *.
  change (2 ^ 50) with (2 ^ 52 / 4) in *.
  set (C := 2 ^ 52) in *.
  assert (HC : 4 * (C / 4) = C /\ 1024 <= C) by (unfold C; split; [reflexivity | lia]).
  unfold P in *. clear P.
  set (MN := Zpos mn) in *. set (MK := Zpos mk) in *. set (MR := Zpos mr) in *.
  clearbody C MN MK MR.
  set (P0 := n * num) in *.
  assert (U1 : MR * Wr * C * (K * den * C) <= MN * MK * (C + 1) * (K * den * C)).
  { apply Z.mul_le_mono_nonneg_r; [nonneg | exact Hrup]. }
  assert (U2 : MN * (C + 1) * (MK * K * den * C)
               <= MN * (C + 1) * (num * (C * (2 * C)) * (C + 1))).
  { apply Z.mul_le_mono_nonneg_l; [nonneg | exact Hkup]. }
  assert (U3 : MR * R * den * (C * C) * Xn
               <= P0 * (C * (2 * C)) * ((C + 1) * (C + 1)) * Xn).
  { replace (MR * R * den * (C * C) * Xn)
      with (MR * Wr * C * (K * den * C))
      by (transitivity (MR * (R * Xn) * den * (C * C)); [rewrite HW |]; ring).
    replace (P0 * (C * (2 * C)) * ((C + 1) * (C + 1)) * Xn)
      with (MN * (C + 1) * (num * (C * (2 * C)) * (C + 1)))
      by (unfold P0; rewrite Hvn; ring).
    replace (MN * MK * (C + 1) * (K * den * C))
      with (MN * (C + 1) * (MK * K * den * C)) in U1 by ring.
    lia. }
  apply Z.mul_le_mono_pos_r in U3; [| exact HXn].
  assert (L1 : MN * MK * (C - 1) * (K * den * (C * C))
               <= MR * Wr * C * (K * den * (C * C))).
  { apply Z.mul_le_mono_nonneg_r; [nonneg | exact Hrlo]. }
  assert (L2 : MN * (C - 1) * (num * (C * (2 * C)) * ((C - 1) * (C - 1)))
               <= MN * (C - 1) * (MK * K * den * (C * C))).
  { apply Z.mul_le_mono_nonneg_l; [nonneg | exact Hklo]. }
  assert (L3 : P0 * (C * (2 * C)) * ((C - 1) * (C - 1) * (C - 1)) * Xn
               <= MR * R * den * (C * C * C) * Xn).
  { replace (MR * R * den * (C * C * C) * Xn)
      with (MR * Wr * C * (K * den * (C * C)))
      by (transitivity (MR * (R * Xn) * den * (C * C * C)); [rewrite HW |]; ring).
    replace (P0 * (C * (2 * C)) * ((C - 1) * (C - 1) * (C - 1)) * Xn)
      with (MN * (C - 1) * (num * (C * (2 * C)) * ((C - 1) * (C - 1))))
      by (unfold P0; rewrite Hvn; ring).
    replace (MN * MK * (C - 1) * (K * den * (C * C)))
      with (MN * (C - 1) * (MK * K * den * (C * C))) in L1 by ring.
    lia. }
  apply Z.mul_le_mono_pos_r in L3; [| exact HXn].
  destruct Ht as [Ht1 Ht2].
  assert (HP0 : 0 < P0) by (unfold P0; apply Z.mul_pos_pos; lia).
  assert (HA : 0 < C * (2 * C)) by (apply Z.mul_pos_pos; lia).
  assert (H4 : 4 * P0 < C) by lia.
  split.
  { assert (Hpos : 0 < MR * R) by (apply Z.mul_pos_pos; lia).
    assert (Ht0 : 0 < (t + 1) * (C * (2 * C))) by lia.
    apply Z.lt_0_mul in Ht0. lia. }
  split.
  - assert (Hlt : P0 / den < t + 2); [| lia].
    apply Z.div_lt_upper_bound; [lia |]. rewrite Z.mul_comm.
    apply (trunc_lower t den P0 C (C * (2 * C)) (MR * R));
      try assumption; lia.
  - apply Z.div_le_lower_bound; [lia |]. rewrite Z.mul_comm.
    apply (trunc_upper t den P0 C (C * (2 * C)) (MR * R));
      try assumption; lia.
Qed.

(* ================================================================= *)
(** * [np.base_repr] in base 36 *)

Lemma digit_value_digit (d : Z) :
  0 <= d < 36 -> Np.digit_value (Np.digit d) = Some d.
Proof.
  intros Hd. unfold Np.digit.
  replace d with (Z.of_nat (Z.to_nat d)) at 2 by lia.
  assert (Hn : (Z.to_nat d < 36)%nat) by lia.
  revert Hn. generalize (Z.to_nat d). intros n Hn.
  do 36 (destruct n as [| n]; [reflexivity |]). lia.
Qed.

Lemma digit_zero (d : Z) :
  0 <= d < 36 -> Np.digit d = "0"%char -> d = 0.
Proof.
  intros Hd. unfold Np.digit.
  replace d with (Z.of_nat (Z.to_nat d)) at 2 by lia.
  assert (Hn : (Z.to_nat d < 36)%nat) by lia.
  revert Hn. generalize (Z.to_nat d). intros n Hn.
  destruct n as [| n]; [reflexivity |].
  do 35 (destruct n as [| n]; [discriminate |]). lia.
Qed.

Lemma digit_not_space (d : Z) : Np.digit d <> " "%char.
Proof.
  unfold Np.digit. generalize (Z.to_nat d). intros n.
  do 36 (destruct n as [| n]; [discriminate |]).
  cbn. destruct n; discriminate.
Qed.


(** The loop terminates within its fuel and appends to [res] the
    base-36 digits of [num], the least significant first, the last of
    them not zero. *)
Lemma base_repr_loop_spec (fuel : nat) :
  forall num res,
    0 <= num < 2 ^ Z.of_nat fuel ->
    exists ds,
      Np.base_repr_loop fuel 36 num res = Some (res ++ map Np.digit ds)
      /\ digits_value ds = num
      /\ Forall (fun d => 0 <= d < 36) ds
      /\ (num = 0 -> ds = [])
      /\ (0 < num -> last ds 0 <> 0).
Proof.
  induction fuel as [| fuel IH]; intros num res Hnum.
  - assert (num = 0) by (cbn in Hnum; lia). subst num.
    exists []. cbn. rewrite app_nil_r. repeat split; auto; lia.
  - cbn [Np.base_repr_loop].
    destruct (Z.eqb_spec num 0) as [-> | Hnz].
    + exists []. cbn. rewrite app_nil_r. repeat split; auto; lia.
    + assert (Hlt : 0 <= num / 36 < 2 ^ Z.of_nat fuel).
      { rewrite Nat2Z.inj_succ, Z.pow_succ_r in Hnum by lia.
        split; [apply Z.div_pos; lia |].
        apply Z.div_lt_upper_bound; lia. }
      destruct (IH (num / 36) (res ++ [Np.digit (num mod 36)]) Hlt)
        as (ds & Hloop & Hval & Hall & Hzero & Hlast).
      exists (num mod 36 :: ds).
      pose proof (Z.mod_pos_bound num 36 eq_refl) as Hmod.
      pose proof (Z.div_mod num 36) as Hdm.
      repeat split.
      * rewrite Hloop, <- app_assoc. reflexivity.
      * cbn [digits_value fold_right]. fold (digits_value ds). lia.
      * constructor; [exact Hmod | exact Hall].
      * intros ->. contradiction.
      * intros _. destruct ds as [| d ds'].
        -- cbn. cbn in Hval. lia.
        -- change (last (d :: ds') 0 <> 0). apply Hlast.
           destruct (Z.eq_dec (num / 36) 0) as [H0 | H0]; [| lia].
           specialize (Hzero H0). discriminate.
Qed.

Lemma int_loop_digits (ds : list Z) :
  Forall (fun d => 0 <= d < 36) ds ->
  forall acc,
    Np.int_loop 36 acc (rev (map Np.digit ds))
    = Some (acc * 36 ^ Z.of_nat (List.length ds) + digits_value ds).
Proof.
  induction 1 as [| d ds Hd Hall IH]; intros acc.
  - cbn. f_equal. lia.
  - cbn [map rev]. 
    assert (Happ : forall l acc',
               Np.int_loop 36 acc' (l ++ [Np.digit d])
               = match Np.int_loop 36 acc' l with
                 | Some v => Some (v * 36 + d)
                 | None => None
                 end).
    { induction l as [| c l IHl]; intros acc'.
      - cbn [app Np.int_loop]. rewrite digit_value_digit by exact Hd.
        destruct (Z.ltb_spec d 36); [reflexivity | lia].
      - cbn [app Np.int_loop]. destruct (Np.digit_value c); [| reflexivity].
        destruct (_ <? _); [apply IHl | reflexivity]. }
    rewrite Happ, IH. f_equal.
    cbn [List.length digits_value fold_right]. fold (digits_value ds).
    rewrite Nat2Z.inj_succ, Z.pow_succ_r by lia. ring.
Qed.


Lemma digit_in_digits (d : Z) :
  0 <= d < 36 -> In (Np.digit d) (list_ascii_of_string Np.digits).
Proof.
  intros Hd. unfold Np.digit. apply nth_In. cbn. lia.
Qed.

Lemma base_repr_36 (n : Z) :
  0 <= n ->
  exists s, Np.base_repr n 36 = Ok s
            /\ base36_numeral n s
            /\ ~ In " "%char (list_ascii_of_string s).
Proof.
  intros Hn. unfold Np.base_repr.
  change (Z.of_nat (String.length Np.digits) <? 36) with false.
  change (36 <? 2) with false. cbv iota.
  rewrite Z.abs_eq by exact Hn.
  assert (Hfuel : 0 <= n < 2 ^ Z.of_nat (Np.base_repr_fuel n)).
  { unfold Np.base_repr_fuel. split; [exact Hn |].
    destruct (Z.eq_dec n 0) as [-> | Hnz]; [reflexivity |].
    rewrite Nat2Z.inj_succ, Z2Nat.id by apply Z.log2_nonneg.
    apply Z.log2_spec. lia. }
  destruct (base_repr_loop_spec _ n [] Hfuel)
    as (ds & Hloop & Hval & Hall & Hzero & Hlast).
  rewrite Hloop. cbn [app].
  destruct (Z.ltb_spec n 0) as [Hneg | _]; [lia |].
  destruct ds as [| d ds'].
  - cbn in Hval. subst n. cbn [map].
    exists "0". split; [reflexivity |]. split.
    + split; [reflexivity |]. split; [| left; reflexivity].
      constructor; [exact (digit_in_digits 0 ltac:(lia)) | constructor].
    + cbn. intros [H | []]. discriminate.
  - set (ds := d :: ds') in *.
    assert (Hpos : 0 < n).
    { destruct (Z.eq_dec n 0) as [H0 | H0]; [| lia].
      specialize (Hzero H0). discriminate. }
    specialize (Hlast Hpos).
    assert (Hcons : exists c t, rev (map Np.digit ds) = c :: t
                                /\ c = Np.digit (last ds 0)).
    { destruct (exists_last (l := ds)) as (l' & x & Hl'); [discriminate |].
      rewrite Hl', map_app, last_last. cbn [map]. rewrite rev_unit.
      eauto. }
    destruct Hcons as (c & t & Hrev & Hc).
    assert (Hne : map Np.digit ds <> []) by discriminate.
    destruct (map Np.digit ds) as [| c0 l0] eqn:Emap; [contradiction |].
    rewrite <- Emap in *. clear Hne.
    exists (string_of_list_ascii (rev (map Np.digit ds))).
    assert (Hlastrange : 0 <= last ds 0 < 36).
    { rewrite Forall_forall in Hall. apply Hall.
      destruct (exists_last (l := ds)) as (l' & x & Hl'); [discriminate |].
      rewrite Hl', last_last. apply in_or_app. right. left. reflexivity. }
    split; [reflexivity |]. split; [split; [| split] |].
    + unfold Np.int. rewrite list_ascii_of_string_of_list_ascii.
      rewrite Hrev, <- Hrev. rewrite int_loop_digits by exact Hall.
      f_equal. lia.
    + rewrite list_ascii_of_string_of_list_ascii.
      apply Forall_rev, Forall_map.
      eapply Forall_impl; [| exact Hall].
      intros a Ha. apply digit_in_digits. exact Ha.
    + right. exists c, (string_of_list_ascii t). split.
      * rewrite Hrev. reflexivity.
      * intros Hc0. apply Hlast. apply digit_zero; [exact Hlastrange |].
        congruence.
    + rewrite list_ascii_of_string_of_list_ascii.
      intros Hin. apply in_rev, in_map_iff in Hin.
      destruct Hin as (x & Hx & _). exact (digit_not_space x Hx).
Qed.

Lemma mapM_base_repr (l : list Z) :
  Forall (fun v => 0 <= v) l ->
  exists tokens,
    mapM (fun pixel => Np.base_repr pixel 36) l = Ok tokens
    /\ Forall2 base36_numeral l tokens
    /\ Forall (fun t => ~ In " "%char (list_ascii_of_string t)) tokens.
Proof.
  induction 1 as [| v l Hv Hl IH].
  - exists []. cbn. auto.
  - destruct IH as (tokens & Hm & Hnum & Hsp).
    destruct (base_repr_36 v Hv) as (t & Ht & Hnumt & Hspt).
    exists (t :: tokens). cbn [mapM]. rewrite Ht. cbn [bind].
    rewrite Hm. cbn [bind]. auto.
Qed.

(* ================================================================= *)
(** * Strings and slices *)

Lemma split_no_sep (c : ascii) (s : string) :
  ~ In c (list_ascii_of_string s) -> split c s = [s].
Proof.
  induction s as [| a s IH]; intros Hin; [reflexivity |].
  cbn [list_ascii_of_string] in Hin. cbn [split].
  destruct (Ascii.eqb_spec a c) as [-> | Hne].
  - exfalso. apply Hin. left. reflexivity.
  - rewrite IH; [reflexivity |]. intros H. apply Hin. right. exact H.
Qed.

Lemma split_app_sep (c : ascii) (s r : string) :
  ~ In c (list_ascii_of_string s) ->
  split c (s ++ String c r)%string = s :: split c r.
Proof.
  induction s as [| a s IH]; intros Hin.
  - cbn. rewrite Ascii.eqb_refl. reflexivity.
  - cbn [list_ascii_of_string] in Hin. cbn [append split].
    destruct (Ascii.eqb_spec a c) as [-> | Hne].
    + exfalso. apply Hin. left. reflexivity.
    + rewrite IH; [reflexivity |]. intros H. apply Hin. right. exact H.
Qed.

(** Splitting at the spaces undoes joining with one space, for tokens
    that hold no space. *)
Lemma split_join (tokens : list string) :
  tokens <> [] ->
  Forall (fun t => ~ In " "%char (list_ascii_of_string t)) tokens ->
  split " " (join " " tokens) = tokens.
Proof.
  intros Hne Hall. unfold join.
  induction Hall as [| t ts Ht Hts IH]; [contradiction |].
  destruct ts as [| t' ts'].
  - cbn. apply split_no_sep. exact Ht.
  - change (String.concat " " (t :: t' :: ts'))
      with (t ++ String " " (String.concat " " (t' :: ts')))%string.
    rewrite split_app_sep by exact Ht.
    f_equal. apply IH. discriminate.
Qed.

(** [l[i:i+cap]] for a start inside the list and a positive capacity:
    the elements at positions [i], [i+1], ... as far as [cap] and the
    end of the list allow. *)
Lemma slice_window {A} (l : list A) (i cap : Z) :
  0 <= i < Z.of_nat (List.length l) -> 0 < cap ->
  let n := Z.min cap (Z.of_nat (List.length l) - i) in
  slice l i (i + cap) = firstn (Z.to_nat n) (skipn (Z.to_nat i) l)
  /\ Z.of_nat (List.length (slice l i (i + cap))) = n
  /\ forall j d, 0 <= j < n ->
                 nth (Z.to_nat j) (slice l i (i + cap)) d
                 = nth (Z.to_nat (i + j)) l d.
Proof.
  intros Hi Hcap n.
  assert (Hs : slice l i (i + cap)
               = firstn (Z.to_nat n) (skipn (Z.to_nat i) l)).
  { unfold slice, slice_index.
    destruct (Z.ltb_spec i 0); [lia |].
    destruct (Z.ltb_spec (i + cap) 0); [lia |].
    rewrite (Z.min_l i) by lia. f_equal. unfold n. lia. }
  rewrite Hs. split; [reflexivity |]. split.
  - rewrite length_firstn, length_skipn. unfold n. lia.
  - intros j d Hj. rewrite nth_firstn.
    destruct (Nat.ltb_spec (Z.to_nat j) (Z.to_nat n)); [| lia].
    rewrite nth_skipn. f_equal. lia.
Qed.

(* ================================================================= *)
(** * Row-major pixel data *)

Lemma length_range (n : Z) : List.length (range n) = Z.to_nat n.
Proof. unfold range. rewrite length_map, length_seq. reflexivity. Qed.

Lemma nth_range (n : Z) (i : nat) (d : Z) :
  (i < Z.to_nat n)%nat -> nth i (range n) d = Z.of_nat i.
Proof.
  intros Hi. unfold range.
  rewrite (nth_indep _ d (Z.of_nat 0)) by (rewrite length_map, length_seq; lia).
  rewrite map_nth, seq_nth by lia. reflexivity.
Qed.

Lemma length_flat_map_rows {A B} (f : A -> list B) (w : nat) (l : list A) :
  (forall a, List.length (f a) = w) ->
  List.length (flat_map f l) = (List.length l * w)%nat.
Proof.
  intros Hw. induction l as [| a l IH]; [reflexivity |].
  cbn [flat_map List.length]. rewrite length_app, Hw, IH. lia.
Qed.

Lemma nth_flat_map_rows {A B} (f : A -> list B) (w : nat) (l : list A) :
  (forall a, List.length (f a) = w) ->
  forall y x d a0,
    (y < List.length l)%nat -> (x < w)%nat ->
    nth (y * w + x) (flat_map f l) d = nth x (f (nth y l a0)) d.
Proof.
  intros Hw. induction l as [| a l IH]; intros y x d a0 Hy Hx.
  - cbn in Hy. lia.
  - cbn [flat_map]. destruct y as [| y].
    + cbn [Nat.mul Nat.add nth]. apply app_nth1. rewrite Hw. exact Hx.
    + rewrite app_nth2 by (rewrite Hw; lia).
      rewrite Hw. cbn [nth].
      replace (S y * w + x - w)%nat with (y * w + x)%nat by lia.
      apply IH; [cbn in Hy; lia | exact Hx].
Qed.

Lemma length_getdata (img : Image) :
  0 <= width img -> 0 <= height img ->
  Z.of_nat (List.length (getdata img)) = width img * height img.
Proof.
  intros Hw Hh. unfold getdata.
  rewrite (length_flat_map_rows _ (Z.to_nat (width img))).
  - rewrite length_range. lia.
  - intros y. rewrite length_map, length_range. reflexivity.
Qed.

Lemma nth_getdata (img : Image) (x y : Z) (d : RGBA) :
  0 <= x < width img -> 0 <= y < height img ->
  nth (Z.to_nat (y * width img + x)) (getdata img) d = getpixel img x y.
Proof.
  intros Hx Hy. unfold getdata.
  replace (Z.to_nat (y * width img + x))
    with (Z.to_nat y * Z.to_nat (width img) + Z.to_nat x)%nat by lia.
  rewrite (nth_flat_map_rows _ (Z.to_nat (width img)) _) with (a0 := 0);
    [| intros a; rewrite length_map, length_range; reflexivity
     | rewrite length_range; lia | lia].
  rewrite nth_range by lia.
  rewrite (nth_indep _ d (getpixel img 0 (Z.of_nat (Z.to_nat y))))
    by (rewrite length_map, length_range; lia).
  rewrite (map_nth (fun x0 => getpixel img x0 (Z.of_nat (Z.to_nat y)))).
  rewrite nth_range by lia. f_equal; lia.
Qed.

Lemma setitem_app (done : list Z) (h : Z) (t : list Z) (v : Z) :
  Np.setitem (done ++ h :: t) (List.length done) v = done ++ v :: t.
Proof.
  induction done as [| a done IH]; [reflexivity |].
  cbn [app List.length Np.setitem]. rewrite IH. reflexivity.
Qed.

Lemma fill_from {A} (f : A -> Z) (l : list A) :
  forall done,
    fold_left (fun new_arr ip =>
                 Np.setitem new_arr (Z.to_nat (fst ip)) (f (snd ip)))
              (combine (map Z.of_nat (seq (List.length done) (List.length l))) l)
              (done ++ Np.zeros (List.length l))
    = done ++ map f l.
Proof.
  induction l as [| a l IH]; intros done; [reflexivity |].
  cbn [List.length seq map combine fold_left Np.zeros repeat fst snd].
  rewrite Nat2Z.id, setitem_app.
  change (done ++ f a :: repeat 0 (List.length l))
    with (done ++ [f a] ++ Np.zeros (List.length l)).
  rewrite app_assoc.
  replace (S (List.length done)) with (List.length (done ++ [f a]))
    by (rewrite length_app; cbn; lia).
  rewrite IH, <- app_assoc. reflexivity.
Qed.

(** The loop of lines 50-53 writes, at each index, the packed value of
    the pixel at that index. *)
Lemma pack_pixels_map (img : Image) :
  pack_pixels img = map pack (getdata img).
Proof.
  unfold pack_pixels, enumerate, range.
  rewrite Nat2Z.id.
  exact (fill_from pack (getdata img) []).
Qed.

(* ================================================================= *)
(** * The LRU wrapper *)

Section LruFacts.
Context {K V : Type}.
Variable eqb : K -> K -> bool.
Hypothesis eqb_eq : forall a b, eqb a b = true <-> a = b.

Abbreviation drop k := (filter (fun x => negb (eqb k x))).

Lemma eqb_refl_key (k : K) : eqb k k = true.
Proof. apply eqb_eq. reflexivity. Qed.

Lemma eqb_neq (a b : K) : a <> b -> eqb a b = false.
Proof.
  intros Hne. destruct (eqb a b) eqn:E; [| reflexivity].
  apply eqb_eq in E. contradiction.
Qed.

Lemma cache_get_none (key : K) (l : list (K * V)) :
  cache_get eqb key l = None <-> ~ In key (map fst l).
Proof.
  induction l as [| [k v] l IH]; cbn [cache_get map fst In].
  - tauto.
  - destruct (eqb key k) eqn:E.
    + apply eqb_eq in E. subst k. split; [discriminate | tauto].
    + rewrite IH. split.
      * intros Hn [Hk | Hin]; [| tauto].
        subst k. rewrite eqb_refl_key in E. discriminate.
      * tauto.
Qed.

Lemma cache_get_some (key : K) (l : list (K * V)) (v : V) :
  cache_get eqb key l = Some v -> In (key, v) l.
Proof.
  induction l as [| [k v'] l IH]; cbn [cache_get In]; [discriminate |].
  destruct (eqb key k) eqn:E.
  - apply eqb_eq in E. subst k. intros [= ->]. left. reflexivity.
  - intros H. right. apply IH. exact H.
Qed.

Lemma drop_notin (k : K) (l : list K) : ~ In k l -> drop k l = l.
Proof.
  induction l as [| a l IH]; intros Hin; [reflexivity |].
  cbn [filter]. rewrite eqb_neq.
  - cbn [negb]. rewrite IH; [reflexivity |]. intros H. apply Hin. right. exact H.
  - intros ->. apply Hin. left. reflexivity.
Qed.

Lemma keys_remove_key (k : K) (l : list (K * V)) :
  map fst (remove_key eqb k l) = drop k (map fst l).
Proof.
  induction l as [| [a v] l IH]; [reflexivity |].
  unfold remove_key in *. cbn [filter map fst].
  destruct (eqb k a); cbn [negb map fst]; rewrite IH; reflexivity.
Qed.

Lemma NoDup_distinct (log : list K) : NoDup (distinct eqb log).
Proof.
  induction log as [| k log IH]; cbn [distinct]; constructor.
  - rewrite filter_In, eqb_refl_key. intros [_ H]. discriminate.
  - apply NoDup_filter. exact IH.
Qed.

Lemma In_distinct (log : list K) (x : K) : In x (distinct eqb log) <-> In x log.
Proof.
  induction log as [| k log IH]; cbn [distinct In]; [tauto |].
  rewrite filter_In, IH. split.
  - tauto.
  - intros [-> | Hin]; [left; reflexivity |].
    destruct (eqb k x) eqn:E.
    + apply eqb_eq in E. left. exact E.
    + right. split; [exact Hin | reflexivity].
Qed.

Lemma In_firstn {A} (n : nat) (l : list A) (x : A) :
  In x (firstn n l) -> In x l.
Proof.
  intros H. rewrite <- (firstn_skipn n l). apply in_or_app. left. exact H.
Qed.

(** Removing a key that is among the first [n] of a duplicate-free list
    leaves the first [n - 1] of the others. *)
Lemma drop_firstn_in (k : K) (l : list K) :
  NoDup l ->
  forall n, In k (firstn n l) ->
            drop k (firstn n l) = firstn (pred n) (drop k l).
Proof.
  induction 1 as [| a l Ha Hl IH]; intros n Hin.
  - rewrite firstn_nil in Hin. contradiction.
  - destruct n as [| n]; [contradiction |].
    cbn [firstn filter pred] in *.
    destruct (eqb k a) eqn:E; cbn [negb].
    + apply eqb_eq in E. subst a.
      rewrite !drop_notin; [reflexivity | exact Ha |].
      intros H. apply Ha. eapply In_firstn. exact H.
    + destruct Hin as [Hk | Hin].
      * subst a. rewrite eqb_refl_key in E. discriminate.
      * rewrite (IH _ Hin). destruct n as [| n]; [contradiction |].
        reflexivity.
Qed.

(** Removing a key that is not among the first [n] does not change them. *)
Lemma firstn_drop_notin (k : K) (l : list K) :
  forall n, ~ In k (firstn n l) -> firstn n (drop k l) = firstn n l.
Proof.
  induction l as [| a l IH]; intros n Hin; [reflexivity |].
  destruct n as [| n]; [reflexivity |].
  cbn [firstn filter] in *.
  rewrite eqb_neq by (intros ->; apply Hin; left; reflexivity).
  cbn [negb firstn]. rewrite IH; [reflexivity |].
  intros H. apply Hin. right. exact H.
Qed.

Variable maxsize : Z.
Hypothesis maxsize_pos : 0 < maxsize.

Lemma recent_bound (c : lru_cache K V) :
  keys c = recent eqb maxsize c ->
  Z.of_nat (List.length (entries c)) <= maxsize.
Proof.
  intros H. apply (f_equal (@List.length K)) in H.
  unfold keys, recent in H. rewrite length_map, length_firstn in H. lia.
Qed.

Lemma recent_touch (key : K) (v : V) (c : lru_cache K V) :
  cache_get eqb key (entries c) = Some v ->
  keys c = recent eqb maxsize c ->
  keys (touch eqb key v c) = recent eqb maxsize (touch eqb key v c).
Proof.
  intros Hget Hc. unfold keys, recent in *.
  cbn [touch entries uses map fst distinct].
  rewrite keys_remove_key, Hc.
  assert (Hin : In key (firstn (Z.to_nat maxsize) (distinct eqb (uses c)))).
  { rewrite <- Hc. apply cache_get_some in Hget.
    apply (in_map fst) in Hget. exact Hget. }
  rewrite (drop_firstn_in _ _ (NoDup_distinct _) _ Hin).
  destruct (Z.to_nat maxsize) as [| n] eqn:E; [lia |]. reflexivity.
Qed.

Lemma recent_store (key : K) (v : V) (c : lru_cache K V) :
  cache_get eqb key (entries c) = None ->
  keys c = recent eqb maxsize c ->
  keys (store maxsize key v c) = recent eqb maxsize (store maxsize key v c).
Proof.
  intros Hget Hc. apply cache_get_none in Hget.
  unfold keys, recent in *.
  cbn [store entries uses map fst distinct].
  destruct (Z.to_nat maxsize) as [| n] eqn:E; [lia |].
  cbn [firstn]. f_equal.
  set (D := distinct eqb (uses c)) in *.
  assert (Hlen : List.length (entries c) = List.length (firstn (S n) D)).
  { rewrite <- Hc, length_map. reflexivity. }
  rewrite Hc in Hget.
  destruct (Z.leb_spec maxsize (Z.of_nat (List.length (entries c)))) as [Hfull | Hroom].
  - assert (HD : (n < List.length D)%nat).
    { rewrite Hlen, length_firstn in Hfull. lia. }
    replace (map fst (removelast (entries c)))
      with (removelast (map fst (entries c))).
    + rewrite Hc, removelast_firstn by exact HD.
      symmetry. apply firstn_drop_notin.
      intros H. apply Hget.
      rewrite <- (firstn_skipn n (firstn (S n) D)), firstn_firstn.
      apply in_or_app. left.
      replace (Nat.min n (S n)) with n by lia. exact H.
    + clear. induction (entries c) as [| [a x] l IH]; [reflexivity |].
      destruct l as [| b l]; [reflexivity |].
      cbn [removelast map fst] in *. rewrite IH. reflexivity.
  - assert (HD : (List.length D <= n)%nat).
    { rewrite Hlen, length_firstn in Hroom. lia. }
    rewrite firstn_all2 in Hget by lia.
    rewrite Hc, (firstn_all2 D) by lia.
    rewrite drop_notin by exact Hget.
    rewrite firstn_all2 by lia. reflexivity.
Qed.

End LruFacts.

(* ================================================================= *)
(** * The two caches of the application *)

Lemma RenderKey_eqb_eq (a b : RenderKey) :
  RenderKey_eqb a b = true <-> a = b.
Proof.
  destruct a as [[[u1 w1] h1] k1], b as [[[u2 w2] h2] k2].
  unfold RenderKey_eqb.
  rewrite !andb_true_iff, String.eqb_eq, !Z.eqb_eq, Bool.eqb_true_iff.
  split.
  - intros [[[-> ->] ->] ->]. reflexivity.
  - intros [= -> -> -> ->]. auto.
Qed.

Lemma Forall_removelast {A} (P : A -> Prop) (l : list A) :
  Forall P l -> Forall P (removelast l).
Proof.
  induction 1 as [| a l Ha Hl IH]; [constructor |].
  cbn [removelast]. destruct l; [constructor |].
  constructor; assumption.
Qed.

(** [fetch_picture]: a hit answers from the cache and asks nothing of the
    network; a miss asks the network once, and stores the picture only
    when there is one. *)
Lemma fetch_picture_spec (img_url : string) (st : State) :
  match cache_get String.eqb img_url (entries (fetch_cache st)) with
  | Some img =>
      fetch_picture img_url st
      = (Ok img,
         set_fetch_cache (touch String.eqb img_url img (fetch_cache st)) st)
  | None =>
      let st1 := {| fetch_cache := missed (fetch_cache st);
                    handle_cache := handle_cache st;
                    network_log := img_url :: network_log st |} in
      match fst (fetch_picture_wrapped img_url st) with
      | Raise e => fetch_picture img_url st = (Raise e, st1)
      | Ok img =>
          fetch_picture img_url st
          = (Ok img,
             set_fetch_cache
               (store FETCH_CACHE_SIZE img_url img (missed (fetch_cache st)))
               st1)
      end
  end.
Proof.
  unfold fetch_picture, call.
  destruct (cache_get String.eqb img_url (entries (fetch_cache st)))
    as [img |] eqn:Hget; [reflexivity |].
  unfold fetch_picture_wrapped.
  cbn [set_fetch_cache fetch_cache handle_cache network_log fst].
  destruct (bind (requests_get (network_log st) img_url) _) as [img | e];
    [| reflexivity].
  cbn [missed entries]. rewrite Hget. reflexivity.
Qed.

Lemma fetch_picture_handle_cache (img_url : string) (st : State) :
  handle_cache (snd (fetch_picture img_url st)) = handle_cache st.
Proof.
  pose proof (fetch_picture_spec img_url st) as H.
  destruct (cache_get _ _ _); [rewrite H; reflexivity |].
  cbv zeta in H.
  destruct (fst (fetch_picture_wrapped img_url st)); rewrite H; reflexivity.
Qed.

Lemma fetch_picture_recent (img_url : string) (st : State) :
  keys (fetch_cache st) = recent String.eqb FETCH_CACHE_SIZE (fetch_cache st) ->
  let c := fetch_cache (snd (fetch_picture img_url st)) in
  keys c = recent String.eqb FETCH_CACHE_SIZE c.
Proof.
  intros Hc. cbv zeta.
  pose proof (fetch_picture_spec img_url st) as H.
  destruct (cache_get _ _ _) as [img |] eqn:Hget.
  - rewrite H. cbn [snd set_fetch_cache fetch_cache].
    apply (recent_touch String.eqb String.eqb_eq); [reflexivity | | exact Hc].
    exact Hget.
  - cbv zeta in H.
    destruct (fst (fetch_picture_wrapped img_url st)); rewrite H;
      cbn [snd set_fetch_cache fetch_cache].
    + apply (recent_store String.eqb String.eqb_eq); [reflexivity | | exact Hc].
      exact Hget.
    + exact Hc.
Qed.

(** [handle_picture]: a hit answers from the cache without fetching or
    rendering; a miss fetches, resizes and packs, and stores the
    sequence only when there is one. *)
Lemma handle_picture_spec (img_url : string) (width height : Z)
      (keep_aspect_ratio : bool) (st : State) :
  let key := (img_url, width, height, keep_aspect_ratio) in
  match cache_get RenderKey_eqb key (entries (handle_cache st)) with
  | Some arr =>
      handle_picture img_url width height keep_aspect_ratio st
      = (Ok arr,
         set_handle_cache (touch RenderKey_eqb key arr (handle_cache st)) st)
  | None =>
      match fetch_picture img_url
                          (set_handle_cache (missed (handle_cache st)) st) with
      | (Raise e, st1) =>
          handle_picture img_url width height keep_aspect_ratio st
          = (Raise e, st1)
      | (Ok src, st1) =>
          match resized src width height keep_aspect_ratio with
          | Raise e =>
              handle_picture img_url width height keep_aspect_ratio st
              = (Raise e, st1)
          | Ok img =>
              handle_picture img_url width height keep_aspect_ratio st
              = (Ok (pack_pixels img),
                 set_handle_cache
                   (store HANDLE_CACHE_SIZE key (pack_pixels img)
                          (missed (handle_cache st)))
                   st1)
          end
      end
  end.
Proof.
  cbv zeta. unfold handle_picture, call.
  destruct (cache_get RenderKey_eqb _ (entries (handle_cache st)))
    as [arr |] eqn:Hget; [reflexivity |].
  unfold handle_picture_wrapped.
  pose proof (fetch_picture_handle_cache
                img_url (set_handle_cache (missed (handle_cache st)) st)) as Hfr.
  destruct (fetch_picture img_url _) as [[src | e] st1]; [| reflexivity].
  cbn [snd set_handle_cache handle_cache] in Hfr.
  destruct (resized src width height keep_aspect_ratio) as [img | e];
    cbn [bind]; [| reflexivity].
  rewrite Hfr. cbn [missed entries]. rewrite Hget. reflexivity.
Qed.

Lemma handle_picture_coherent (img_url : string) (width height : Z)
      (keep_aspect_ratio : bool) (st : State) :
  coherent st ->
  coherent (snd (handle_picture img_url width height keep_aspect_ratio st)).
Proof.
  intros (Hf & Hh & Hr).
  pose proof (handle_picture_spec img_url width height keep_aspect_ratio st)
    as H. cbv zeta in H.
  destruct (cache_get RenderKey_eqb _ (entries (handle_cache st)))
    as [arr |] eqn:Hget.
  - rewrite H. cbn [snd]. split; [exact Hf |]. split.
    + apply (recent_touch RenderKey_eqb RenderKey_eqb_eq);
        [reflexivity | exact Hget | exact Hh].
    + cbn [set_handle_cache handle_cache touch entries].
      rewrite Forall_forall in Hr. constructor.
      * apply (Hr (_, arr)).
        apply (cache_get_some RenderKey_eqb RenderKey_eqb_eq). exact Hget.
      * apply Forall_forall. intros kv Hin.
        apply Hr. unfold remove_key in Hin. apply filter_In in Hin. tauto.
  - set (st0 := set_handle_cache (missed (handle_cache st)) st) in *.
    pose proof (fetch_picture_recent img_url st0 Hf) as Hf1.
    pose proof (fetch_picture_handle_cache img_url st0) as Hh1.
    cbv zeta in Hf1.
    destruct (fetch_picture img_url st0) as [[src | e] st1];
      cbn [snd] in Hf1, Hh1.
    + destruct (resized src width height keep_aspect_ratio) as [img | e]
        eqn:Hres; rewrite H; cbn [snd].
      * split; [exact Hf1 |]. split.
        -- apply (recent_store RenderKey_eqb RenderKey_eqb_eq);
             [reflexivity | exact Hget | exact Hh].
        -- cbn [set_handle_cache handle_cache store missed entries].
           constructor.
           ++ cbn [fst snd rendered]. exists src, img. auto.
           ++ destruct (_ <=? _); [apply Forall_removelast |]; exact Hr.
      * split; [exact Hf1 |]. rewrite Hh1. split; [exact Hh | exact Hr].
    + rewrite H. cbn [snd]. split; [exact Hf1 |].
      rewrite Hh1. split; [exact Hh | exact Hr].
Qed.

Lemma get_picutre_pixels_state (img_url : string) (i cap width height : Z)
      (keep_aspect_ratio : bool) (st : State) :
  snd (get_picutre_pixels img_url i cap width height keep_aspect_ratio st) = st
  \/ snd (get_picutre_pixels img_url i cap width height keep_aspect_ratio st)
     = snd (handle_picture img_url width height keep_aspect_ratio st).
Proof.
  unfold get_picutre_pixels.
  destruct (i <? 0); [left; reflexivity |].
  destruct (cap <=? 0); [left; reflexivity |].
  destruct (i >=? width * height); [left; reflexivity |].
  right.
  destruct (handle_picture img_url width height keep_aspect_ratio st)
    as [[arr | e] st1]; cbn [snd].
  - destruct (mapM _ _); reflexivity.
  - destruct e; reflexivity.
Qed.

(** Every state the service can be in is coherent. *)
Lemma reachable_coherent (st : State) : reachable st -> coherent st.
Proof.
  induction 1 as [| st img_url i cap width height keep Hst IH].
  - repeat split; constructor.
  - destruct (get_picutre_pixels_state img_url i cap width height keep st)
      as [-> | ->]; [exact IH |].
    apply handle_picture_coherent. exact IH.
Qed.

(* ================================================================= *)
(** * The Window Service: validation and errors *)

(** C2. The three checks are made in the order start < 0, capacity <= 0,
    start >= width*height; the first that fails gives a client error
    (status 400) with its own message, and the state is returned as it
    was: nothing was fetched or rendered. *)
Theorem validation_order (img_url : string) (i cap width height : Z)
        (keep_aspect_ratio : bool) (st : State) :
  (i < 0 ->
   get_picutre_pixels img_url i cap width height keep_aspect_ratio st
   = (HTTPException 400 "Start index less than zero", st))
  /\ (0 <= i -> cap <= 0 ->
      get_picutre_pixels img_url i cap width height keep_aspect_ratio st
      = (HTTPException 400 "Buffer capacity is less or equal zero", st))
  /\ (0 <= i -> 0 < cap -> i >= width * height ->
      get_picutre_pixels img_url i cap width height keep_aspect_ratio st
      = (HTTPException 400 "Start index is more than width * height", st)).
Proof.
  unfold get_picutre_pixels. repeat split.
  - intros Hi. destruct (Z.ltb_spec i 0); [reflexivity | lia].
  - intros Hi Hcap.
    destruct (Z.ltb_spec i 0); [lia |].
    destruct (Z.leb_spec cap 0); [reflexivity | lia].
  - intros Hi Hcap Hwh.
    destruct (Z.ltb_spec i 0); [lia |].
    destruct (Z.leb_spec cap 0); [lia |].
    destruct (Z.geb_spec i (width * height)); [reflexivity | lia].
Qed.

(** C10, as amended. With width*height <= 0 every request is refused
    with a client error and the state is returned as it was; the error is
    "Start index is more than width * height" when the start is not
    negative and the capacity is positive, the two earlier checks coming
    first otherwise. *)
Theorem empty_area_rejected (img_url : string) (i cap width height : Z)
        (keep_aspect_ratio : bool) (st : State) :
  width * height <= 0 ->
  (exists detail,
      get_picutre_pixels img_url i cap width height keep_aspect_ratio st
      = (HTTPException 400 detail, st))
  /\ (0 <= i -> 0 < cap ->
      get_picutre_pixels img_url i cap width height keep_aspect_ratio st
      = (HTTPException 400 "Start index is more than width * height", st)).
Proof.
  intros Hwh. unfold get_picutre_pixels.
  destruct (Z.ltb_spec i 0) as [Hi | Hi].
  - split; [eexists; reflexivity | lia].
  - destruct (Z.leb_spec cap 0) as [Hc | Hc].
    + split; [eexists; reflexivity | lia].
    + destruct (Z.geb_spec i (width * height)); [| lia].
      split; [eexists; reflexivity | reflexivity].
Qed.


(** C7. A fetch that fails leaves the entries of the fetch cache as they
    were, with no entry for the url; the failed call did ask the network,
    and the next call for the same url asks it again. *)
Theorem failed_fetch_not_cached (img_url : string) (st st' : State) (e : exn) :
  fetch_picture img_url st = (Raise e, st') ->
  entries (fetch_cache st') = entries (fetch_cache st)
  /\ uses (fetch_cache st') = uses (fetch_cache st)
  /\ ~ In img_url (keys (fetch_cache st'))
  /\ network_log st' = img_url :: network_log st
  /\ network_log (snd (fetch_picture img_url st'))
     = img_url :: network_log st'.
Proof.
  intros Hfetch.
  pose proof (fetch_picture_spec img_url st) as H.
  destruct (cache_get String.eqb img_url (entries (fetch_cache st)))
    as [img |] eqn:Hget; [congruence |].
  cbv zeta in H.
  destruct (fst (fetch_picture_wrapped img_url st)) as [img | e0];
    [congruence |].
  rewrite H in Hfetch. injection Hfetch as <- <-.
  cbn [fetch_cache missed entries uses network_log].
  split; [reflexivity |]. split; [reflexivity |].
  split; [apply (cache_get_none String.eqb String.eqb_eq); exact Hget |].
  split; [reflexivity |].
  match goal with |- network_log (snd (fetch_picture _ ?s)) = _ =>
    pose proof (fetch_picture_spec img_url s) as H1 end.
  cbn [fetch_cache missed entries] in H1. rewrite Hget in H1.
  cbv zeta in H1.
  destruct (fst (fetch_picture_wrapped img_url _)); rewrite H1; reflexivity.
Qed.

(* ================================================================= *)
(** * Rendering and windows *)

Lemma resize_size (filter : Resampling) (src : Image) (w h : Z) (img : Image) :
  resize filter src w h = Ok img ->
  width img = w /\ height img = h /\ 1 <= w /\ 1 <= h
  /\ getpixel img = filter src w h.
Proof.
  unfold resize.
  destruct (Z.ltb_spec w 1); cbn [orb]; [discriminate |].
  destruct (Z.ltb_spec h 1); [discriminate |].
  intros [= <-]. cbn. auto.
Qed.

Lemma new_size (w h : Z) (img : Image) :
  PIL.new w h = Ok img ->
  width img = w /\ height img = h /\ 0 <= w /\ 0 <= h
  /\ getpixel img = fun _ _ => transparent.
Proof.
  unfold PIL.new.
  destruct (Z.ltb_spec w 0); cbn [orb]; [discriminate |].
  destruct (Z.ltb_spec h 0); [discriminate |].
  intros [= <-]. cbn. auto.
Qed.

Lemma resize_to_keep_aspect_ratio_size (src : Image) (w h : Z) (img : Image) :
  resize_to_keep_aspect_ratio src w h = Ok img ->
  width img = w /\ height img = h /\ 0 <= w /\ 0 <= h.
Proof.
  unfold resize_to_keep_aspect_ratio.
  destruct (PIL.new w h) as [canvas | e] eqn:Hnew; cbn [bind]; [| discriminate].
  apply new_size in Hnew. destruct Hnew as (Hw & Hh & Hw0 & Hh0 & _).
  destruct (width src >=? height src).
  - destruct (scaled _ _ _) as [s | e]; cbn [bind]; [| discriminate].
    destruct (resize _ _ _ _) as [img' | e]; cbn [bind]; [| discriminate].
    intros [= <-]. cbn. auto.
  - destruct (scaled _ _ _) as [s | e]; cbn [bind]; [| discriminate].
    destruct (resize _ _ _ _) as [img' | e]; cbn [bind]; [| discriminate].
    intros [= <-]. cbn. auto.
Qed.

Lemma resized_size (src : Image) (w h : Z) (keep : bool) (img : Image) :
  resized src w h keep = Ok img ->
  width img = w /\ height img = h /\ 0 <= w /\ 0 <= h.
Proof.
  unfold resized. destruct keep; cbn [negb].
  - apply resize_to_keep_aspect_ratio_size.
  - intros H. apply resize_size in H. intuition lia.
Qed.

Lemma pack_range (p : RGBA) : 0 <= pack p < 2 ^ 32.
Proof.
  destruct p as [[[r g] b] a]. unfold pack, Np.uint32.
  apply Z.mod_pos_bound. reflexivity.
Qed.

Lemma rendered_shape (img_url : string) (w h : Z) (keep : bool) (arr : list Z) :
  rendered (img_url, w, h, keep) arr ->
  Z.of_nat (List.length arr) = w * h
  /\ Forall (fun v => 0 <= v) arr
  /\ exists src img,
      resized src w h keep = Ok img
      /\ width img = w /\ height img = h
      /\ arr = map pack (getdata img).
Proof.
  intros (src & img & Hres & ->).
  destruct (resized_size _ _ _ _ _ Hres) as (Hw & Hh & Hw0 & Hh0).
  rewrite pack_pixels_map. split; [| split].
  - rewrite length_map, length_getdata by lia. rewrite Hw, Hh. reflexivity.
  - apply Forall_map, Forall_forall. intros p _. apply pack_range.
  - exists src, img. auto.
Qed.

(** A sequence that [handle_picture] returns was rendered for its key,
    whether it comes from the cache or was just computed. *)
Lemma handle_picture_rendered (img_url : string) (w h : Z) (keep : bool)
      (st st' : State) (arr : list Z) :
  coherent st ->
  handle_picture img_url w h keep st = (Ok arr, st') ->
  rendered (img_url, w, h, keep) arr.
Proof.
  intros (_ & _ & Hr) Hh.
  pose proof (handle_picture_spec img_url w h keep st) as H. cbv zeta in H.
  destruct (cache_get RenderKey_eqb _ (entries (handle_cache st)))
    as [arr0 |] eqn:Hget.
  - rewrite H in Hh. injection Hh as <- _.
    rewrite Forall_forall in Hr.
    apply (Hr (_, arr0)).
    apply (cache_get_some RenderKey_eqb RenderKey_eqb_eq). exact Hget.
  - destruct (fetch_picture img_url _) as [[src | e] st1]; [| congruence].
    destruct (resized src w h keep) as [img | e] eqn:Hres; [| congruence].
    rewrite H in Hh. injection Hh as <- _.
    exists src, img. auto.
Qed.


(** C1. In a state the service can be in, for valid parameters and a
    render that succeeds, the body is the base-36 numerals (digits 0-9
    then A-Z, no leading zero) of the packed values at positions i,
    i+1, ... below i+cap and below the end of the sequence, joined by
    single spaces: it has exactly min(cap, width*height - i) tokens. *)
Theorem window_tokens (img_url : string) (i cap width height : Z)
        (keep_aspect_ratio : bool) (st st' : State) (arr : list Z) :
  reachable st ->
  0 <= i -> 0 < cap -> i < width * height ->
  handle_picture img_url width height keep_aspect_ratio st = (Ok arr, st') ->
  let n := Z.min cap (width * height - i) in
  exists tokens,
    get_picutre_pixels img_url i cap width height keep_aspect_ratio st
    = (PlainTextResponse (join " " tokens), st')
    /\ split " " (join " " tokens) = tokens
    /\ Z.of_nat (List.length tokens) = n
    /\ forall j, 0 <= j < n ->
                 base36_numeral (nth (Z.to_nat (i + j)) arr 0)
                                (nth (Z.to_nat j) tokens "").
Proof.
  intros Hreach Hi Hcap Hwh Hhandle n.
  apply reachable_coherent in Hreach.
  pose proof (handle_picture_rendered _ _ _ _ _ _ _ Hreach Hhandle) as Hr.
  apply rendered_shape in Hr. destruct Hr as (Hlen & Hpos & _).
  destruct (slice_window arr i cap) as (Hslice & Hslen & Hsnth); [lia | lia |].
  rewrite Hlen in Hslen, Hsnth. fold n in Hslen, Hsnth.
  set (buf := slice arr i (i + cap)) in *.
  assert (Hbufpos : Forall (fun v => 0 <= v) buf).
  { rewrite Hslice. apply Forall_forall. intros v Hv.
    apply In_firstn in Hv. rewrite Forall_forall in Hpos. apply Hpos.
    rewrite <- (firstn_skipn (Z.to_nat i) arr). apply in_or_app. right.
    exact Hv. }
  destruct (mapM_base_repr buf Hbufpos) as (tokens & Hm & Hnum & Hsp).
  assert (Htlen : List.length tokens = List.length buf).
  { symmetry. eapply Forall2_length. exact Hnum. }
  exists tokens. split; [| split; [| split]].
  - unfold get_picutre_pixels.
    destruct (Z.ltb_spec i 0); [lia |].
    destruct (Z.leb_spec cap 0); [lia |].
    destruct (Z.geb_spec i (width * height)); [lia |].
    rewrite Hhandle. fold buf. rewrite Hm. reflexivity.
  - apply split_join; [| exact Hsp].
    intros ->. cbn in Htlen. unfold n in Hslen. lia.
  - rewrite Htlen. exact Hslen.
  - intros j Hj. rewrite <- (Hsnth j 0 Hj).
    assert (Hjn : (Z.to_nat j < List.length buf)%nat) by lia.
    clear - Hnum Hjn. revert Hjn. generalize (Z.to_nat j) as k.
    induction Hnum as [| v t l l' Hvt Hrest IH]; intros k Hk.
    + cbn in Hk. lia.
    + destruct k as [| k]; [exact Hvt |].
      cbn [nth]. apply IH. cbn in Hk. lia.
Qed.

(* ================================================================= *)
(** * Capacity and eviction *)

Lemma exists_last_in {A} (l : list A) (d : A) : l <> [] -> In (last l d) l.
Proof.
  intros Hne. rewrite (app_removelast_last d Hne) at 2.
  apply in_or_app. right. left. reflexivity.
Qed.

Lemma cache_get_in {K V} (eqb : K -> K -> bool)
      (eqb_eq : forall a b, eqb a b = true <-> a = b)
      (l : list (K * V)) (k : K) (v : V) :
  NoDup (map fst l) -> In (k, v) l -> cache_get eqb k l = Some v.
Proof.
  induction l as [| [a x] l IH]; intros Hnd Hin; [contradiction |].
  cbn [map fst] in Hnd. inversion Hnd as [| ? ? Ha Hl]; subst.
  cbn [cache_get]. destruct Hin as [[= -> ->] | Hin].
  - rewrite (proj2 (eqb_eq k k) eq_refl). reflexivity.
  - destruct (eqb k a) eqn:E; [| apply IH; assumption].
    apply eqb_eq in E. subst a. exfalso. apply Ha.
    apply (in_map fst) in Hin. exact Hin.
Qed.

Lemma NoDup_recent {K V} (eqb : K -> K -> bool)
      (eqb_eq : forall a b, eqb a b = true <-> a = b)
      (maxsize : Z) (c : lru_cache K V) :
  keys c = recent eqb maxsize c -> NoDup (keys c).
Proof.
  intros ->. unfold recent.
  pose proof (NoDup_distinct eqb eqb_eq (uses c)) as Hnd.
  rewrite <- (firstn_skipn (Z.to_nat maxsize) (distinct eqb (uses c))) in Hnd.
  apply NoDup_app_remove_r in Hnd. exact Hnd.
Qed.

Lemma last_not_in_removelast {A} (l : list A) (d : A) :
  NoDup l -> l <> [] -> ~ In (last l d) (removelast l).
Proof.
  intros Hnd Hne.
  rewrite (app_removelast_last d Hne) in Hnd.
  apply NoDup_remove_2 in Hnd. rewrite app_nil_r in Hnd. exact Hnd.
Qed.

Lemma map_removelast {A B} (f : A -> B) (l : list A) :
  map f (removelast l) = removelast (map f l).
Proof.
  induction l as [| a l IH]; [reflexivity |].
  destruct l as [| b l]; [reflexivity |].
  cbn [removelast map] in *. rewrite IH. reflexivity.
Qed.

(** C9. In every state the service can be in:
    - neither cache holds more entries than its size;
    - the keys of each cache are the most recently used ones, in the
      order of their last use, a use being a call that returned a value,
      from the cache or newly stored;
    - a call for a resident key returns the stored value, and does not
      ask the network (fetch cache) or fetch and render (render cache);
    - a call for a key that is not resident recomputes: it asks the
      network (fetch cache), it fetches and renders (render cache); its
      result is stored in front, and when the cache is full the entry at
      the back, the least recently used, is dropped and is no more
      resident. *)
Theorem lru_eviction (st : State) :
  reachable st ->
  (Z.of_nat (List.length (entries (fetch_cache st))) <= FETCH_CACHE_SIZE
   /\ Z.of_nat (List.length (entries (handle_cache st))) <= HANDLE_CACHE_SIZE)
  /\ (keys (fetch_cache st) = recent String.eqb FETCH_CACHE_SIZE (fetch_cache st)
      /\ keys (handle_cache st)
         = recent RenderKey_eqb HANDLE_CACHE_SIZE (handle_cache st))
  /\ (forall img_url img,
         In (img_url, img) (entries (fetch_cache st)) ->
         exists st',
           fetch_picture img_url st = (Ok img, st')
           /\ network_log st' = network_log st
           /\ entries (fetch_cache st')
              = (img_url, img)
                  :: remove_key String.eqb img_url (entries (fetch_cache st)))
  /\ (forall img_url,
         ~ In img_url (keys (fetch_cache st)) ->
         network_log (snd (fetch_picture img_url st))
         = img_url :: network_log st
         /\ forall img st',
             fetch_picture img_url st = (Ok img, st') ->
             let old := entries (fetch_cache st) in
             let full := FETCH_CACHE_SIZE <=? Z.of_nat (List.length old) in
             entries (fetch_cache st')
             = (img_url, img) :: (if full then removelast old else old)
             /\ (full = true ->
                 forall d, ~ In (last (keys (fetch_cache st)) d)
                             (keys (fetch_cache st'))))
  /\ (forall img_url width height keep_aspect_ratio arr,
         let key := (img_url, width, height, keep_aspect_ratio) in
         In (key, arr) (entries (handle_cache st)) ->
         exists st',
           handle_picture img_url width height keep_aspect_ratio st
           = (Ok arr, st')
           /\ fetch_cache st' = fetch_cache st
           /\ network_log st' = network_log st
           /\ entries (handle_cache st')
              = (key, arr)
                  :: remove_key RenderKey_eqb key (entries (handle_cache st)))
  /\ (forall img_url width height keep_aspect_ratio,
         let key := (img_url, width, height, keep_aspect_ratio) in
         ~ In key (keys (handle_cache st)) ->
         forall arr st',
           handle_picture img_url width height keep_aspect_ratio st
           = (Ok arr, st') ->
           let old := entries (handle_cache st) in
           let full := HANDLE_CACHE_SIZE <=? Z.of_nat (List.length old) in
           (exists src img st1,
               fetch_picture img_url
                             (set_handle_cache (missed (handle_cache st)) st)
               = (Ok src, st1)
               /\ resized src width height keep_aspect_ratio = Ok img
               /\ arr = pack_pixels img)
           /\ entries (handle_cache st')
              = (key, arr) :: (if full then removelast old else old)
           /\ (full = true ->
               forall d, ~ In (last (keys (handle_cache st)) d)
                           (keys (handle_cache st')))).
Proof.
  intros Hreach. apply reachable_coherent in Hreach.
  destruct Hreach as (Hf & Hh & _).
  pose proof (NoDup_recent String.eqb String.eqb_eq _ _ Hf) as Hndf.
  pose proof (NoDup_recent RenderKey_eqb RenderKey_eqb_eq _ _ Hh) as Hndh.
  split; [| split; [| split; [| split; [| split]]]].
  - split.
    + apply (recent_bound String.eqb FETCH_CACHE_SIZE eq_refl). exact Hf.
    + apply (recent_bound RenderKey_eqb HANDLE_CACHE_SIZE eq_refl). exact Hh.
  - split; assumption.
  - intros img_url img Hin.
    pose proof (fetch_picture_spec img_url st) as H.
    rewrite (cache_get_in String.eqb String.eqb_eq _ _ _ Hndf Hin) in H.
    eexists. split; [exact H |]. split; reflexivity.
  - intros img_url Hnin.
    pose proof (fetch_picture_spec img_url st) as H.
    apply (cache_get_none String.eqb String.eqb_eq) in Hnin.
    rewrite Hnin in H. cbv zeta in H.
    destruct (fst (fetch_picture_wrapped img_url st)) as [img0 | e];
      rewrite H; cbn [snd set_fetch_cache network_log].
    + split; [reflexivity |].
      intros img st' [= <- <-]. cbv zeta.
      cbn [set_fetch_cache fetch_cache store missed entries].
      split; [reflexivity |].
      intros Hfull d. unfold keys at 2.
      cbn [set_fetch_cache fetch_cache store missed entries map fst].
      rewrite Hfull.
      intros [Heq | Hin].
      * apply (cache_get_none String.eqb String.eqb_eq) in Hnin.
        apply Hnin. rewrite Heq.
        apply (@exists_last_in string). intros Hnil.
        unfold keys in Hnil. apply map_eq_nil in Hnil.
        rewrite Hnil in Hfull. discriminate.
      * rewrite map_removelast in Hin.
        revert Hin. apply last_not_in_removelast; [exact Hndf |].
        intros Hnil. unfold keys in Hnil. apply map_eq_nil in Hnil.
        rewrite Hnil in Hfull. discriminate.
    + split; [reflexivity |]. intros img st' [=].
  - intros img_url width height keep arr key Hin.
    pose proof (handle_picture_spec img_url width height keep st) as H.
    cbv zeta in H. fold key in H.
    rewrite (cache_get_in RenderKey_eqb RenderKey_eqb_eq _ _ _ Hndh Hin) in H.
    eexists. split; [exact H |]. repeat split; reflexivity.
  - intros img_url width height keep key Hnin arr st' Hhandle.
    pose proof (handle_picture_spec img_url width height keep st) as H.
    cbv zeta in H. fold key in H.
    pose proof Hnin as Hget.
    apply (cache_get_none RenderKey_eqb RenderKey_eqb_eq) in Hget.
    rewrite Hget in H.
    destruct (fetch_picture img_url _) as [[src | e] st1] eqn:Hfetch;
      [| congruence].
    destruct (resized src width height keep) as [img | e] eqn:Hres;
      [| congruence].
    rewrite H in Hhandle. injection Hhandle as <- <-. cbv zeta.
    split; [exists src, img, st1; auto |].
    cbn [set_handle_cache handle_cache store missed entries].
    split; [reflexivity |].
    intros Hfull d. unfold keys at 2.
    cbn [set_handle_cache handle_cache store missed entries map fst].
    match goal with |- context [if ?b then _ else _] =>
      replace b with true by (symmetry; exact Hfull) end.
    intros [Heq | Hin].
    + apply Hnin. rewrite Heq.
      apply (@exists_last_in RenderKey). intros Hnil.
      unfold keys in Hnil. apply map_eq_nil in Hnil.
      rewrite Hnil in Hfull. discriminate.
    + rewrite map_removelast in Hin.
      revert Hin. apply last_not_in_removelast; [exact Hndh |].
      intros Hnil. unfold keys in Hnil. apply map_eq_nil in Hnil.
      rewrite Hnil in Hfull. discriminate.
Qed.

Lemma reachable_after_requests (urls : list string) :
  reachable (after_requests urls).
Proof.
  unfold after_requests.
  assert (H : forall st, reachable st ->
                         reachable (fold_left
                                      (fun st img_url =>
                                         snd (get_picutre_pixels
                                                img_url 0 1 2 2 false st))
                                      urls st)).
  { induction urls as [| u urls IH]; intros st Hst; [exact Hst |].
    cbn [fold_left]. apply IH. constructor. exact Hst. }
  apply H. constructor.
Qed.

(* ================================================================= *)
(** * The Aspect-Fit Resizer *)

(** What the resizer gives once the scaled height [s] is known, for a
    source at least as wide as high. *)
Lemma resize_wide (img : Image) (dw dh s : Z) :
  0 < dw -> 0 < dh ->
  (width img >=? height img) = true ->
  scaled (height img) dw (width img) = Ok s ->
  if s <? 1
  then resize_to_keep_aspect_ratio img dw dh
       = Raise (ValueError "height and width must be > 0")
  else exists out,
      resize_to_keep_aspect_ratio img dw dh = Ok out
      /\ width out = dw /\ height out = dh
      /\ forall x y,
          getpixel out x y
          = let oy := (dh - s) / 2 in
            if (0 <=? x) && (x <? dw) && (oy <=? y) && (y <? oy + s)
            then BICUBIC img dw s x (y - oy)
            else transparent.
Proof.
  intros Hdw Hdh Hwide Hs. unfold resize_to_keep_aspect_ratio, PIL.new.
  destruct (Z.ltb_spec dw 0); [lia |].
  destruct (Z.ltb_spec dh 0); [lia |].
  cbn [orb bind]. rewrite Hwide, Hs. cbn [bind]. unfold resize.
  destruct (Z.ltb_spec dw 1); [lia |]. cbn [orb].
  destruct (s <? 1); cbn [bind]; [reflexivity |].
  eexists. split; [reflexivity |]. cbn [paste width height getpixel].
  split; [reflexivity |]. split; [reflexivity |].
  intros x y. cbv zeta. rewrite Z.add_0_l, Z.sub_0_r. reflexivity.
Qed.

(** The same for a source higher than wide, whose width is scaled. *)
Lemma resize_tall (img : Image) (dw dh s : Z) :
  0 < dw -> 0 < dh ->
  (width img >=? height img) = false ->
  scaled (width img) dh (height img) = Ok s ->
  if s <? 1
  then resize_to_keep_aspect_ratio img dw dh
       = Raise (ValueError "height and width must be > 0")
  else exists out,
      resize_to_keep_aspect_ratio img dw dh = Ok out
      /\ width out = dw /\ height out = dh
      /\ forall x y,
          getpixel out x y
          = let ox := (dw - s) / 2 in
            if (ox <=? x) && (x <? ox + s) && (0 <=? y) && (y <? dh)
            then BICUBIC img s dh (x - ox) y
            else transparent.
Proof.
  intros Hdw Hdh Hwide Hs. unfold resize_to_keep_aspect_ratio, PIL.new.
  destruct (Z.ltb_spec dw 0); [lia |].
  destruct (Z.ltb_spec dh 0); [lia |].
  cbn [orb bind]. rewrite Hwide, Hs. cbn [bind]. unfold resize.
  destruct (Z.ltb_spec dh 1); [lia |].
  destruct (s <? 1); cbn [orb bind]; [reflexivity |].
  eexists. split; [reflexivity |]. cbn [paste width height getpixel].
  split; [reflexivity |]. split; [reflexivity |].
  intros x y. cbv zeta. rewrite Z.add_0_l, Z.sub_0_r. reflexivity.
Qed.

(** C5, as amended. The resizer branches on sourceWidth >= sourceHeight
    alone.  In the first case the picture is scaled to width
    desiredWidth and height s = int(sourceHeight * (desiredWidth /
    sourceWidth)), the binary64 product cut toward zero: s is
    floor(sourceHeight * desiredWidth / sourceWidth) or one less, not the
    nearest integer.  It is pasted at vertical offset
    floor((desiredHeight - s) / 2) on a transparent desiredWidth x
    desiredHeight canvas, which clips it; when s is 0 the resize is
    refused with a ValueError.  The second case is the same with the
    roles of width and height exchanged.  Sizes are below 2^25. *)
Theorem aspect_fit_layout (img : Image) (desired_width desired_height : Z) :
  0 < desired_width < 2 ^ 25 -> 0 < desired_height < 2 ^ 25 ->
  0 < width img < 2 ^ 25 -> 0 < height img < 2 ^ 25 ->
  (width img >= height img ->
   exists s,
     scaled (height img) desired_width (width img) = Ok s
     /\ height img * desired_width / width img - 1 <= s
        <= height img * desired_width / width img
     /\ if s <? 1
        then resize_to_keep_aspect_ratio img desired_width desired_height
             = Raise (ValueError "height and width must be > 0")
        else exists out,
            resize_to_keep_aspect_ratio img desired_width desired_height
            = Ok out
            /\ width out = desired_width /\ height out = desired_height
            /\ forall x y,
                getpixel out x y
                = let oy := (desired_height - s) / 2 in
                  if (0 <=? x) && (x <? desired_width)
                     && (oy <=? y) && (y <? oy + s)
                  then BICUBIC img desired_width s x (y - oy)
                  else transparent)
  /\ (width img < height img ->
      exists s,
        scaled (width img) desired_height (height img) = Ok s
        /\ width img * desired_height / height img - 1 <= s
           <= width img * desired_height / height img
        /\ if s <? 1
           then resize_to_keep_aspect_ratio img desired_width desired_height
                = Raise (ValueError "height and width must be > 0")
           else exists out,
               resize_to_keep_aspect_ratio img desired_width desired_height
               = Ok out
               /\ width out = desired_width /\ height out = desired_height
               /\ forall x y,
                   getpixel out x y
                   = let ox := (desired_width - s) / 2 in
                     if (ox <=? x) && (x <? ox + s)
                        && (0 <=? y) && (y <? desired_height)
                     then BICUBIC img s desired_height (x - ox) y
                     else transparent).
Proof.
  intros Hdw Hdh Hw Hh.
  assert (Hbig : 2 ^ 25 * 2 ^ 25 = 2 ^ 50) by reflexivity.
  split.
  - intros Hwide.
    destruct (scaled_bounds (height img) desired_width (width img))
      as (s & Hs & Hs0 & Hsb); try lia.
    { rewrite <- Hbig. apply Z.mul_lt_mono_nonneg; lia. }
    exists s. split; [exact Hs |]. split; [exact Hsb |].
    apply resize_wide; [lia | lia | | exact Hs].
    destruct (Z.geb_spec (width img) (height img)); [reflexivity | lia].
  - intros Htall.
    destruct (scaled_bounds (width img) desired_height (height img))
      as (s & Hs & Hs0 & Hsb); try lia.
    { rewrite <- Hbig. apply Z.mul_lt_mono_nonneg; lia. }
    exists s. split; [exact Hs |]. split; [exact Hsb |].
    apply resize_tall; [lia | lia | | exact Hs].
    destruct (Z.geb_spec (width img) (height img)); [lia | reflexivity].
Qed.

(** C6, as amended. For a source at least as wide as high, the scaled
    height is at most desiredHeight when sourceHeight * desiredWidth <=
    sourceWidth * desiredHeight (the target is in proportion at least as
    high as the source); for a source higher than wide, the scaled width
    is at most desiredWidth when sourceWidth * desiredHeight <=
    sourceHeight * desiredWidth.  Sizes are below 2^25. *)
Theorem scaled_side_within (img : Image) (desired_width desired_height : Z) :
  0 < desired_width < 2 ^ 25 -> 0 < desired_height < 2 ^ 25 ->
  0 < width img < 2 ^ 25 -> 0 < height img < 2 ^ 25 ->
  (width img >= height img ->
   height img * desired_width <= width img * desired_height ->
   exists s, scaled (height img) desired_width (width img) = Ok s
             /\ 0 <= s <= desired_height)
  /\ (width img < height img ->
      width img * desired_height <= height img * desired_width ->
      exists s, scaled (width img) desired_height (height img) = Ok s
                /\ 0 <= s <= desired_width).
Proof.
  intros Hdw Hdh Hw Hh.
  assert (Hbig : 2 ^ 25 * 2 ^ 25 = 2 ^ 50) by reflexivity.
  assert (Hdiv : forall a b c, 0 < b -> 0 <= a -> a <= b * c ->
                               -1 <= a / b - 1 /\ a / b <= c).
  { intros a b c Hb Ha Hab. split.
    - pose proof (Z.div_pos a b Ha Hb). lia.
    - apply Z.div_le_upper_bound; assumption. }
  split.
  - intros _ Hprop.
    destruct (scaled_bounds (height img) desired_width (width img))
      as (s & Hs & Hs0 & Hsb); try lia.
    { rewrite <- Hbig. apply Z.mul_lt_mono_nonneg; lia. }
    exists s. split; [exact Hs |].
    destruct (Hdiv (height img * desired_width) (width img) desired_height);
      [lia | apply Z.mul_nonneg_nonneg; lia | lia |]. lia.
  - intros _ Hprop.
    destruct (scaled_bounds (width img) desired_height (height img))
      as (s & Hs & Hs0 & Hsb); try lia.
    { rewrite <- Hbig. apply Z.mul_lt_mono_nonneg; lia. }
    exists s. split; [exact Hs |].
    destruct (Hdiv (width img * desired_height) (height img) desired_width);
      [lia | apply Z.mul_nonneg_nonneg; lia | lia |]. lia.
Qed.

(* ================================================================= *)
(** * Further properties: requests served from the caches *)

Lemma RenderKey_eqb_refl (key : RenderKey) : RenderKey_eqb key key = true.
Proof. apply RenderKey_eqb_eq. reflexivity. Qed.

Lemma cache_get_present {K V} (eqb : K -> K -> bool)
      (eqb_eq : forall a b, eqb a b = true <-> a = b)
      (l : list (K * V)) (k : K) :
  In k (map fst l) -> exists v, cache_get eqb k l = Some v.
Proof.
  intros Hin. destruct (cache_get eqb k l) as [v |] eqn:E; [eauto |].
  apply (cache_get_none eqb eqb_eq) in E. contradiction.
Qed.

(** [fetch_picture] reads and writes the fetch cache and the network
    only: the render cache can be set before or after it. *)
Lemma fetch_picture_frame (img_url : string)
      (c : lru_cache RenderKey (list Z)) (st : State) :
  fetch_picture img_url (set_handle_cache c st)
  = (fst (fetch_picture img_url st),
     set_handle_cache c (snd (fetch_picture img_url st))).
Proof.
  pose proof (fetch_picture_spec img_url st) as H1.
  pose proof (fetch_picture_spec img_url (set_handle_cache c st)) as H2.
  change (fetch_cache (set_handle_cache c st)) with (fetch_cache st) in H2.
  change (fst (fetch_picture_wrapped img_url (set_handle_cache c st)))
    with (fst (fetch_picture_wrapped img_url st)) in H2.
  destruct (cache_get String.eqb img_url (entries (fetch_cache st))).
  - rewrite H1, H2. reflexivity.
  - cbv zeta in H1, H2.
    destruct (fst (fetch_picture_wrapped img_url st));
      rewrite H1, H2; reflexivity.
Qed.

(** A sequence that [handle_picture] returns is resident under its key
    afterwards. *)
Lemma handle_picture_resident (img_url : string) (w h : Z) (keep : bool)
      (st st' : State) (arr : list Z) :
  handle_picture img_url w h keep st = (Ok arr, st') ->
  cache_get RenderKey_eqb (img_url, w, h, keep) (entries (handle_cache st'))
  = Some arr.
Proof.
  intros Hh.
  pose proof (handle_picture_spec img_url w h keep st) as H. cbv zeta in H.
  destruct (cache_get RenderKey_eqb _ (entries (handle_cache st)))
    as [arr0 |] eqn:Hget.
  - rewrite H in Hh. injection Hh as <- <-.
    cbn [set_handle_cache handle_cache touch entries cache_get].
    rewrite RenderKey_eqb_refl. reflexivity.
  - destruct (fetch_picture img_url _) as [[src | e] st1]; [| congruence].
    destruct (resized src w h keep) as [img | e]; [| congruence].
    rewrite H in Hh. injection Hh as <- <-.
    cbn [set_handle_cache handle_cache store entries cache_get].
    rewrite RenderKey_eqb_refl. reflexivity.
Qed.

(** What a hit of the render cache leaves untouched. *)
Lemma handle_picture_hit (img_url : string) (w h : Z) (keep : bool)
      (st : State) (arr : list Z) :
  cache_get RenderKey_eqb (img_url, w, h, keep) (entries (handle_cache st))
  = Some arr ->
  let st' := snd (handle_picture img_url w h keep st) in
  fst (handle_picture img_url w h keep st) = Ok arr
  /\ network_log st' = network_log st
  /\ fetch_cache st' = fetch_cache st
  /\ misses (handle_cache st') = misses (handle_cache st)
  /\ hits (handle_cache st') = hits (handle_cache st) + 1.
Proof.
  intros Hget. cbv zeta.
  pose proof (handle_picture_spec img_url w h keep st) as H. cbv zeta in H.
  rewrite Hget in H. rewrite H. cbn. auto.
Qed.

(** X1. Once a render has succeeded, any further request for the same
    picture, size and mode is answered from the render cache: nothing is
    asked of the network, the fetch cache is not consulted, nothing is
    rendered again; and the same window gets the same reply. *)
Theorem repeat_request_from_cache (img_url : string) (i cap width height : Z)
        (keep_aspect_ratio : bool) (st st1 : State) (arr : list Z) :
  handle_picture img_url width height keep_aspect_ratio st = (Ok arr, st1) ->
  0 <= i -> 0 < cap -> i < width * height ->
  let again := get_picutre_pixels img_url i cap width height
                                  keep_aspect_ratio st1 in
  fst again
  = fst (get_picutre_pixels img_url i cap width height keep_aspect_ratio st)
  /\ network_log (snd again) = network_log st1
  /\ fetch_cache (snd again) = fetch_cache st1
  /\ misses (handle_cache (snd again)) = misses (handle_cache st1)
  /\ hits (handle_cache (snd again)) = hits (handle_cache st1) + 1.
Proof.
  intros Hh Hi Hcap Hwh. cbv zeta.
  pose proof (handle_picture_resident _ _ _ _ _ _ _ Hh) as Hres.
  pose proof (handle_picture_hit _ _ _ _ _ _ Hres) as Hhit. cbv zeta in Hhit.
  unfold get_picutre_pixels.
  destruct (Z.ltb_spec i 0); [lia |].
  destruct (Z.leb_spec cap 0); [lia |].
  destruct (Z.geb_spec i (width * height)); [lia |].
  rewrite Hh.
  destruct (handle_picture img_url width height keep_aspect_ratio st1)
    as [r st2] eqn:E2.
  cbn [fst snd] in Hhit. destruct Hhit as (-> & Hlog & Hfc & Hm & Hhits).
  destruct (mapM _ _); cbn [fst snd]; auto.
Qed.

(** X2. A render that fails is not memoised: the entries of the render
    cache stay as they were, with none for the key, the miss is counted,
    and the next call for the key calls [fetch_picture] again. *)
Theorem failed_render_not_cached (img_url : string) (width height : Z)
        (keep_aspect_ratio : bool) (st st' : State) (e : exn) :
  handle_picture img_url width height keep_aspect_ratio st = (Raise e, st') ->
  let key := (img_url, width, height, keep_aspect_ratio) in
  let st'' := snd (handle_picture img_url width height keep_aspect_ratio st') in
  entries (handle_cache st') = entries (handle_cache st)
  /\ ~ In key (keys (handle_cache st'))
  /\ misses (handle_cache st') = misses (handle_cache st) + 1
  /\ hits (fetch_cache st'') + misses (fetch_cache st'')
     = hits (fetch_cache st') + misses (fetch_cache st') + 1.
Proof.
  intros Hh. cbv zeta.
  pose proof (handle_picture_spec img_url width height keep_aspect_ratio st)
    as H. cbv zeta in H.
  destruct (cache_get RenderKey_eqb _ (entries (handle_cache st)))
    as [arr0 |] eqn:Hget; [congruence |].
  assert (Hst' : handle_cache st' = missed (handle_cache st)).
  { pose proof (fetch_picture_handle_cache
                  img_url (set_handle_cache (missed (handle_cache st)) st))
      as Hfr.
    destruct (fetch_picture img_url _) as [[src | e0] st1]; cbn [snd] in Hfr.
    - destruct (resized src width height keep_aspect_ratio); [congruence |].
      rewrite H in Hh. injection Hh as _ <-. exact Hfr.
    - rewrite H in Hh. injection Hh as _ <-. exact Hfr. }
  rewrite Hst'. cbn [missed entries misses].
  split; [reflexivity |].
  split; [apply (cache_get_none RenderKey_eqb RenderKey_eqb_eq); exact Hget |].
  split; [reflexivity |].
  pose proof (handle_picture_spec img_url width height keep_aspect_ratio st')
    as H'. cbv zeta in H'.
  rewrite Hst' in H'. cbn [missed entries] in H'. rewrite Hget in H'.
  rewrite fetch_picture_frame in H'.
  assert (Hcount : hits (fetch_cache (snd (fetch_picture img_url st')))
                   + misses (fetch_cache (snd (fetch_picture img_url st')))
                   = hits (fetch_cache st') + misses (fetch_cache st') + 1).
  { pose proof (fetch_picture_spec img_url st') as Hf.
    destruct (cache_get String.eqb img_url (entries (fetch_cache st'))).
    - rewrite Hf. cbn. lia.
    - cbv zeta in Hf.
      destruct (fst (fetch_picture_wrapped img_url st'));
        rewrite Hf; cbn; lia. }
  destruct (fetch_picture img_url st') as [r stf]. cbn [fst snd] in *.
  destruct r as [src | e0].
  - destruct (resized src width height keep_aspect_ratio);
      rewrite H'; cbn [snd set_handle_cache fetch_cache]; exact Hcount.
  - rewrite H'. cbn [snd set_handle_cache fetch_cache]. exact Hcount.
Qed.

Lemma fetch_picture_effects (img_url : string) (st : State) :
  let st' := snd (fetch_picture img_url st) in
  handle_cache st' = handle_cache st
  /\ if resident String.eqb img_url (fetch_cache st)
     then network_log st' = network_log st
          /\ hits (fetch_cache st') = hits (fetch_cache st) + 1
          /\ misses (fetch_cache st') = misses (fetch_cache st)
     else network_log st' = img_url :: network_log st
          /\ hits (fetch_cache st') = hits (fetch_cache st)
          /\ misses (fetch_cache st') = misses (fetch_cache st) + 1.
Proof.
  cbv zeta. split; [apply fetch_picture_handle_cache |].
  pose proof (fetch_picture_spec img_url st) as H. unfold resident.
  destruct (cache_get String.eqb img_url (entries (fetch_cache st))).
  - rewrite H. cbn. auto.
  - cbv zeta in H.
    destruct (fst (fetch_picture_wrapped img_url st)); rewrite H; cbn; auto.
Qed.

Lemma handle_picture_effects (img_url : string) (w h : Z) (keep : bool)
      (st : State) :
  let st' := snd (handle_picture img_url w h keep st) in
  if resident RenderKey_eqb (img_url, w, h, keep) (handle_cache st)
  then network_log st' = network_log st
       /\ fetch_cache st' = fetch_cache st
       /\ hits (handle_cache st') = hits (handle_cache st) + 1
       /\ misses (handle_cache st') = misses (handle_cache st)
  else fetch_cache st' = fetch_cache (snd (fetch_picture img_url st))
       /\ network_log st' = network_log (snd (fetch_picture img_url st))
       /\ hits (handle_cache st') = hits (handle_cache st)
       /\ misses (handle_cache st') = misses (handle_cache st) + 1.
Proof.
  cbv zeta.
  pose proof (handle_picture_spec img_url w h keep st) as H. cbv zeta in H.
  unfold resident.
  destruct (cache_get RenderKey_eqb _ (entries (handle_cache st))).
  - rewrite H. cbn. auto.
  - rewrite fetch_picture_frame in H.
    pose proof (fetch_picture_handle_cache img_url st) as Hfr.
    destruct (fetch_picture img_url st) as [[src | e] st1];
      cbn [fst snd] in H, Hfr |- *.
    + destruct (resized src w h keep); rewrite H; cbn; auto.
    + rewrite H. cbn. auto.
Qed.

Lemma valid_window_spec (i cap width height : Z) :
  valid_window i cap width height = true
  <-> 0 <= i /\ 0 < cap /\ i < width * height.
Proof. unfold valid_window. lia. Qed.

(** The state after a request is the state after [handle_picture] when
    the parameters are valid, and the state before it otherwise. *)
Lemma get_picutre_pixels_snd (img_url : string) (i cap width height : Z)
      (keep_aspect_ratio : bool) (st : State) :
  snd (get_picutre_pixels img_url i cap width height keep_aspect_ratio st)
  = if valid_window i cap width height
    then snd (handle_picture img_url width height keep_aspect_ratio st)
    else st.
Proof.
  unfold get_picutre_pixels, valid_window.
  destruct (Z.ltb_spec i 0), (Z.leb_spec 0 i); try lia; cbn [andb];
    [reflexivity |].
  destruct (Z.leb_spec cap 0), (Z.ltb_spec 0 cap); try lia; cbn [andb];
    [reflexivity |].
  destruct (Z.geb_spec i (width * height)),
           (Z.ltb_spec i (width * height)); try lia; [reflexivity |].
  destruct (handle_picture img_url width height keep_aspect_ratio st)
    as [[arr | e] st1]; cbn [snd].
  - destruct (mapM _ _); reflexivity.
  - destruct e; reflexivity.
Qed.

(** X3. A request asks the network exactly when its parameters are
    valid, its key has no entry in the render cache and its url has none
    in the fetch cache; it then asks once, for its url. *)
Theorem network_asked_on_double_miss (img_url : string)
        (i cap width height : Z) (keep_aspect_ratio : bool) (st : State) :
  network_log
    (snd (get_picutre_pixels img_url i cap width height keep_aspect_ratio st))
  = if valid_window i cap width height
       && negb (resident RenderKey_eqb
                         (img_url, width, height, keep_aspect_ratio)
                         (handle_cache st))
       && negb (resident String.eqb img_url (fetch_cache st))
    then img_url :: network_log st
    else network_log st.
Proof.
  rewrite get_picutre_pixels_snd.
  destruct (valid_window i cap width height); cbn [andb]; [| reflexivity].
  pose proof (handle_picture_effects img_url width height keep_aspect_ratio st)
    as Hh. cbv zeta in Hh.
  destruct (resident RenderKey_eqb _ (handle_cache st)); cbn [negb andb].
  - apply Hh.
  - destruct Hh as (_ & -> & _).
    pose proof (fetch_picture_effects img_url st) as Hf. cbv zeta in Hf.
    destruct (resident String.eqb img_url (fetch_cache st)); cbn [negb];
      apply Hf.
Qed.

Lemma handle_picture_accounted (img_url : string) (w h : Z) (keep : bool)
      (st : State) :
  accounted st -> accounted (snd (handle_picture img_url w h keep st)).
Proof.
  intros (Ha & Hb & Hc & Hd). unfold accounted.
  pose proof (handle_picture_effects img_url w h keep st) as Hh.
  cbv zeta in Hh.
  destruct (resident RenderKey_eqb _ (handle_cache st)).
  - destruct Hh as (-> & -> & -> & ->). lia.
  - destruct Hh as (-> & -> & -> & ->).
    pose proof (fetch_picture_effects img_url st) as Hf. cbv zeta in Hf.
    destruct Hf as (_ & Hf).
    destruct (resident String.eqb img_url (fetch_cache st));
      destruct Hf as (-> & -> & ->); cbn [List.length]; lia.
Qed.

(** X11. In every state the service can be in, the counters that
    [cache_info()] reports add up: the fetch cache has missed once per
    network request made, [fetch_picture] has been called once per miss
    of the render cache, and no counter is negative. *)
Theorem cache_info_accounting (st : State) :
  reachable st ->
  misses (fetch_cache st) = Z.of_nat (List.length (network_log st))
  /\ hits (fetch_cache st) + misses (fetch_cache st) = misses (handle_cache st)
  /\ 0 <= hits (fetch_cache st)
  /\ 0 <= hits (handle_cache st).
Proof.
  induction 1 as [| st img_url i cap width height keep Hst IH].
  - cbn. lia.
  - rewrite get_picutre_pixels_snd.
    destruct (valid_window i cap width height); [| exact IH].
    apply handle_picture_accounted. exact IH.
Qed.

(* ================================================================= *)
(** * Further properties: replies *)

Lemma fetch_picture_resident (img_url : string) (st st' : State) (img : Image) :
  fetch_picture img_url st = (Ok img, st') ->
  In img_url (keys (fetch_cache st')).
Proof.
  intros Hf. pose proof (fetch_picture_spec img_url st) as H.
  destruct (cache_get String.eqb img_url (entries (fetch_cache st))).
  - rewrite H in Hf. injection Hf as _ <-. left. reflexivity.
  - cbv zeta in H. destruct (fst (fetch_picture_wrapped img_url st));
      [| congruence].
    rewrite H in Hf. injection Hf as _ <-. left. reflexivity.
Qed.

(** X5. Two negative dimensions pass the three parameter checks, their
    product being positive.  In a state the service can be in, such a
    request whose picture can be fetched ends in a ValueError of Pillow
    that the handler does not catch; the render cache keeps its entries
    and the fetched picture stays in the fetch cache. *)
Theorem negative_dimensions_unhandled (img_url : string)
        (i cap width height : Z) (keep_aspect_ratio : bool)
        (st : State) (src : Image) :
  reachable st ->
  width < 0 -> height < 0 ->
  0 <= i -> 0 < cap -> i < width * height ->
  fst (fetch_picture img_url st) = Ok src ->
  let reply := get_picutre_pixels img_url i cap width height
                                  keep_aspect_ratio st in
  (exists msg, fst reply = Uncaught (ValueError msg))
  /\ entries (handle_cache (snd reply)) = entries (handle_cache st)
  /\ In img_url (keys (fetch_cache (snd reply))).
Proof.
  intros Hreach Hw Hh Hi Hcap Hwh Hfetch. cbv zeta.
  apply reachable_coherent in Hreach. destruct Hreach as (_ & _ & Hr).
  pose proof (handle_picture_spec img_url width height keep_aspect_ratio st)
    as H. cbv zeta in H.
  destruct (cache_get RenderKey_eqb _ (entries (handle_cache st)))
    as [arr0 |] eqn:Hget.
  { exfalso. apply (cache_get_some RenderKey_eqb RenderKey_eqb_eq) in Hget.
    rewrite Forall_forall in Hr. specialize (Hr _ Hget).
    cbn [fst snd rendered] in Hr. destruct Hr as (s0 & img & Hres & _).
    apply resized_size in Hres. lia. }
  rewrite fetch_picture_frame in H.
  pose proof (fetch_picture_handle_cache img_url st) as Hfr.
  destruct (fetch_picture img_url st) as [r st1] eqn:Ef.
  cbn [fst snd] in H, Hfetch, Hfr. subst r.
  apply fetch_picture_resident in Ef.
  assert (Hres : exists msg,
             resized src width height keep_aspect_ratio
             = Raise (ValueError msg)).
  { unfold resized, resize, resize_to_keep_aspect_ratio, PIL.new.
    destruct keep_aspect_ratio; cbn [negb].
    - destruct (Z.ltb_spec width 0); [| lia]. cbn [orb bind]. eauto.
    - destruct (Z.ltb_spec width 1); [| lia]. cbn [orb]. eauto. }
  destruct Hres as (msg & Hres). rewrite Hres in H.
  unfold get_picutre_pixels.
  destruct (Z.ltb_spec i 0); [lia |].
  destruct (Z.leb_spec cap 0); [lia |].
  destruct (Z.geb_spec i (width * height)); [lia |].
  rewrite H. cbn [fst snd set_handle_cache handle_cache fetch_cache
                  missed entries].
  split; [eauto |]. split; [reflexivity | exact Ef].
Qed.

(** In a state the service can be in, for valid parameters and a render
    that succeeds, the body is the joined numerals of the window, which
    is not empty. *)
Lemma window_body (img_url : string) (i cap width height : Z)
      (keep_aspect_ratio : bool) (st st' : State) (arr : list Z) :
  coherent st ->
  0 <= i -> 0 < cap -> i < width * height ->
  handle_picture img_url width height keep_aspect_ratio st = (Ok arr, st') ->
  exists tokens,
    mapM (fun pixel => Np.base_repr pixel 36) (slice arr i (i + cap))
    = Ok tokens
    /\ tokens <> []
    /\ Forall2 base36_numeral (slice arr i (i + cap)) tokens
    /\ get_picutre_pixels img_url i cap width height keep_aspect_ratio st
       = (PlainTextResponse (join " " tokens), st').
Proof.
  intros Hco Hi Hcap Hwh Hhandle.
  pose proof (handle_picture_rendered _ _ _ _ _ _ _ Hco Hhandle) as Hr.
  apply rendered_shape in Hr. destruct Hr as (Hlen & Hpos & _).
  destruct (slice_window arr i cap) as (Hslice & Hslen & _); [lia | lia |].
  set (buf := slice arr i (i + cap)) in *.
  assert (Hbufpos : Forall (fun v => 0 <= v) buf).
  { rewrite Hslice. apply Forall_forall. intros v Hv.
    apply In_firstn in Hv. rewrite Forall_forall in Hpos. apply Hpos.
    rewrite <- (firstn_skipn (Z.to_nat i) arr). apply in_or_app. right.
    exact Hv. }
  destruct (mapM_base_repr buf Hbufpos) as (tokens & Hm & Hnum & _).
  exists tokens. split; [exact Hm |]. split; [| split; [exact Hnum |]].
  - intros ->. apply Forall2_length in Hnum. cbn in Hnum. lia.
  - unfold get_picutre_pixels.
    destruct (Z.ltb_spec i 0); [lia |].
    destruct (Z.leb_spec cap 0); [lia |].
    destruct (Z.geb_spec i (width * height)); [lia |].
    rewrite Hhandle. fold buf. rewrite Hm. reflexivity.
Qed.

Lemma join_cons_head (t : string) (ts : list string) :
  exists rest, join " " (t :: ts) = (t ++ rest)%string.
Proof.
  unfold join. destruct ts as [| t' ts'].
  - exists "". cbn. induction t as [| c t IH]; [reflexivity |].
    cbn. rewrite <- IH. reflexivity.
  - eexists. reflexivity.
Qed.

(** X4. In a state the service can be in, a plain-text reply to valid
    parameters starts with '!' exactly when the render failed: a body of
    pixel values starts with one of the characters 0-9A-Z. *)
Theorem error_body_iff_render_failed (img_url : string)
        (i cap width height : Z) (keep_aspect_ratio : bool)
        (st st' : State) (body : string) :
  reachable st ->
  0 <= i -> 0 < cap -> i < width * height ->
  get_picutre_pixels img_url i cap width height keep_aspect_ratio st
  = (PlainTextResponse body, st') ->
  ((exists rest, body = String "!" rest)
   <-> exists e,
      fst (handle_picture img_url width height keep_aspect_ratio st) = Raise e)
  /\ ((exists c rest, body = String c rest
                      /\ In c (list_ascii_of_string Np.digits))
      <-> exists arr,
         fst (handle_picture img_url width height keep_aspect_ratio st)
         = Ok arr).
Proof.
  intros Hreach Hi Hcap Hwh Hserve.
  apply reachable_coherent in Hreach.
  assert (Hbang : ~ In "!"%char (list_ascii_of_string Np.digits)).
  { cbn. intuition discriminate. }
  destruct (handle_picture img_url width height keep_aspect_ratio st)
    as [[arr | e] st1] eqn:Hh; cbn [fst].
  - destruct (window_body _ _ _ _ _ _ _ _ _ Hreach Hi Hcap Hwh Hh)
      as (tokens & _ & Hne & Hnum & Hbody).
    rewrite Hbody in Hserve. injection Hserve as <- _.
    destruct tokens as [| t ts]; [contradiction |].
    inversion Hnum as [| v t0 vs ts0 Hvt _ Hv Ht]; subst.
    destruct (join_cons_head t ts) as (rest & ->).
    destruct Hvt as (_ & Hchars & Hshape).
    assert (Hfirst : exists c t', t = String c t'
                                  /\ In c (list_ascii_of_string Np.digits)).
    { destruct t as [| c t']; [destruct Hshape as [[=] | (? & ? & [=] & _)] |].
      exists c, t'. split; [reflexivity |].
      cbn [list_ascii_of_string] in Hchars. inversion Hchars; assumption. }
    destruct Hfirst as (c & t' & -> & Hc). cbn [append].
    split; split.
    + intros (r0 & [= -> _]). contradiction.
    + intros (e & [=]).
    + eauto.
    + intros _. eauto.
  - unfold get_picutre_pixels in Hserve.
    destruct (Z.ltb_spec i 0); [lia |].
    destruct (Z.leb_spec cap 0); [lia |].
    destruct (Z.geb_spec i (width * height)); [lia |].
    rewrite Hh in Hserve.
    assert (Hstart : exists rest, body = String "!" rest).
    { apply (f_equal fst) in Hserve.
      destruct e; cbn [fst] in Hserve; try discriminate Hserve;
        injection Hserve as <-; unfold error_message; cbn [append]; eauto. }
    split; split.
    + eauto.
    + intros _. exact Hstart.
    + intros (c & r0 & -> & Hc). destruct Hstart as (r1 & [= -> _]).
      contradiction.
    + intros (arr & [=]).
Qed.

(* ================================================================= *)
(** * Further properties: consecutive windows *)

Lemma firstn_add {A} (a b : nat) (l : list A) :
  firstn (a + b) l = firstn a l ++ firstn b (skipn a l).
Proof.
  revert l. induction a as [| a IH]; intros l; [reflexivity |].
  destruct l as [| x l]; [cbn; rewrite firstn_nil; reflexivity |].
  cbn [Nat.add firstn skipn app]. rewrite IH. reflexivity.
Qed.

(** Two adjacent slices make the slice of both. *)
Lemma slice_app {A} (l : list A) (i c1 c2 : Z) :
  0 <= i -> 0 <= c1 -> 0 <= c2 ->
  slice l i (i + c1) ++ slice l (i + c1) (i + c1 + c2)
  = slice l i (i + (c1 + c2)).
Proof.
  intros Hi Hc1 Hc2. unfold slice, slice_index.
  set (len := Z.of_nat (List.length l)).
  assert (Hlen : 0 <= len) by (unfold len; lia).
  destruct (Z.ltb_spec i 0); [lia |].
  destruct (Z.ltb_spec (i + c1) 0); [lia |].
  destruct (Z.ltb_spec (i + c1 + c2) 0); [lia |].
  destruct (Z.ltb_spec (i + (c1 + c2)) 0); [lia |].
  replace (Z.to_nat (Z.min (i + (c1 + c2)) len - Z.min i len))
    with (Z.to_nat (Z.min (i + c1) len - Z.min i len)
          + Z.to_nat (Z.min (i + c1 + c2) len - Z.min (i + c1) len))%nat
    by lia.
  rewrite firstn_add, skipn_skipn. f_equal. f_equal. f_equal. lia.
Qed.

Lemma mapM_app {A B} (f : A -> result B) (l1 l2 : list A) (t1 t2 : list B) :
  mapM f l1 = Ok t1 -> mapM f l2 = Ok t2 -> mapM f (l1 ++ l2) = Ok (t1 ++ t2).
Proof.
  revert t1. induction l1 as [| x l1 IH]; intros t1 H1 H2.
  - cbn in H1. injection H1 as <-. exact H2.
  - cbn [mapM app] in *. destruct (f x) as [y | e]; [| discriminate].
    cbn [bind] in *. destruct (mapM f l1) as [ys | e]; [| discriminate].
    cbn [bind] in H1. injection H1 as <-.
    rewrite (IH ys eq_refl H2). reflexivity.
Qed.

Lemma string_append_assoc (a b c : string) :
  ((a ++ b) ++ c = a ++ (b ++ c))%string.
Proof.
  induction a as [| x a IH]; [reflexivity |]. cbn. rewrite IH. reflexivity.
Qed.

Lemma join_app (t1 t2 : list string) :
  t1 <> [] -> t2 <> [] ->
  join " " (t1 ++ t2) = (join " " t1 ++ " " ++ join " " t2)%string.
Proof.
  intros H1 H2. unfold join.
  induction t1 as [| a t1 IH]; [contradiction |].
  destruct t1 as [| b t1].
  - destruct t2 as [| c t2]; [contradiction |]. reflexivity.
  - change (String.concat " " ((a :: b :: t1) ++ t2))
      with (a ++ " " ++ String.concat " " ((b :: t1) ++ t2))%string.
    rewrite IH by discriminate.
    change (String.concat " " (a :: b :: t1))
      with (a ++ " " ++ String.concat " " (b :: t1))%string.
    rewrite string_append_assoc. reflexivity.
Qed.

(** X6. In a state the service can be in, reading a picture in
    consecutive windows gives what one larger window gives: the body for
    [i, i+c1) followed, after a space, by the body for [i+c1, i+c1+c2),
    asked next, is the body for [i, i+c1+c2). *)
Theorem windows_concatenate (img_url : string) (i c1 c2 width height : Z)
        (keep_aspect_ratio : bool) (st st1 : State) (arr : list Z) :
  reachable st ->
  0 <= i -> 0 < c1 -> 0 < c2 -> i + c1 < width * height ->
  handle_picture img_url width height keep_aspect_ratio st = (Ok arr, st1) ->
  exists body1 body2,
    get_picutre_pixels img_url i c1 width height keep_aspect_ratio st
    = (PlainTextResponse body1, st1)
    /\ fst (get_picutre_pixels img_url (i + c1) c2 width height
                               keep_aspect_ratio st1)
       = PlainTextResponse body2
    /\ fst (get_picutre_pixels img_url i (c1 + c2) width height
                               keep_aspect_ratio st)
       = PlainTextResponse (body1 ++ " " ++ body2).
Proof.
  intros Hreach Hi Hc1 Hc2 Hend Hh.
  pose proof (reachable_coherent _ Hreach) as Hco.
  assert (Hco1 : coherent st1).
  { replace st1
      with (snd (handle_picture img_url width height keep_aspect_ratio st))
      by (rewrite Hh; reflexivity).
    apply handle_picture_coherent. exact Hco. }
  pose proof (handle_picture_resident _ _ _ _ _ _ _ Hh) as Hres.
  pose proof (handle_picture_hit _ _ _ _ _ _ Hres) as Hhit. cbv zeta in Hhit.
  destruct (handle_picture img_url width height keep_aspect_ratio st1)
    as [r st2] eqn:Hh1.
  cbn [fst] in Hhit. destruct Hhit as (-> & _).
  destruct (window_body img_url i c1 width height keep_aspect_ratio
                        st st1 arr Hco)
    as (t1 & Hm1 & Hne1 & _ & Hb1); [lia | lia | lia | exact Hh |].
  destruct (window_body img_url (i + c1) c2 width height keep_aspect_ratio
                        st1 st2 arr Hco1)
    as (t2 & Hm2 & Hne2 & _ & Hb2); [lia | lia | lia | exact Hh1 |].
  destruct (window_body img_url i (c1 + c2) width height keep_aspect_ratio
                        st st1 arr Hco)
    as (t & Hm & _ & _ & Hb); [lia | lia | lia | exact Hh |].
  exists (join " " t1), (join " " t2).
  split; [exact Hb1 |]. split; [rewrite Hb2; reflexivity |].
  rewrite Hb. cbn [fst]. f_equal.
  rewrite <- join_app by assumption. f_equal.
  rewrite <- (slice_app arr i c1 c2) in Hm by lia.
  rewrite (mapM_app _ _ _ _ _ Hm1 Hm2) in Hm. injection Hm as <-.
  reflexivity.
Qed.

(* ================================================================= *)
(** * Further properties: the resizer and the packer *)

(** X12. On channels in 0..255 the packer is one-to-one: two pixels with
    the same packed value are the same pixel. *)
Theorem pack_injective (r1 g1 b1 a1 r2 g2 b2 a2 : Z) :
  0 <= r1 <= 255 -> 0 <= g1 <= 255 -> 0 <= b1 <= 255 -> 0 <= a1 <= 255 ->
  0 <= r2 <= 255 -> 0 <= g2 <= 255 -> 0 <= b2 <= 255 -> 0 <= a2 <= 255 ->
  pack (r1, g1, b1, a1) = pack (r2, g2, b2, a2) ->
  (r1, g1, b1, a1) = (r2, g2, b2, a2).
Proof.
  intros Hr1 Hg1 Hb1 Ha1 Hr2 Hg2 Hb2 Ha2. unfold pack, Np.uint32.
  rewrite !pack_sum by lia.
  change (2 ^ 32) with 4294967296. change (2 ^ 24) with 16777216.
  change (2 ^ 16) with 65536. change (2 ^ 8) with 256.
  rewrite !Z.mod_small by lia.
  intros H. repeat f_equal; lia.
Qed.

Lemma getdata_ext (img1 img2 : Image) :
  width img1 = width img2 -> height img1 = height img2 ->
  (forall x y, 0 <= x < width img1 -> 0 <= y < height img1 ->
               getpixel img1 x y = getpixel img2 x y) ->
  getdata img1 = getdata img2.
Proof.
  intros Hw Hh Hpx. unfold getdata. rewrite <- Hw, <- Hh.
  assert (Hin : forall n v, In v (range n) -> 0 <= v < n).
  { intros n v Hv. unfold range in Hv. apply in_map_iff in Hv.
    destruct Hv as (k & <- & Hk). apply in_seq in Hk. lia. }
  assert (Hrows : forall rows,
             (forall y, In y rows -> 0 <= y < height img1) ->
             flat_map (fun y => map (fun x => getpixel img1 x y)
                                    (range (width img1))) rows
             = flat_map (fun y => map (fun x => getpixel img2 x y)
                                      (range (width img1))) rows).
  { induction rows as [| y rows IH]; intros Hy; [reflexivity |].
    cbn [flat_map]. f_equal.
    - apply map_ext_in. intros x Hx. apply Hpx; [apply Hin; exact Hx |].
      apply Hy. left. reflexivity.
    - apply IH. intros y' Hy'. apply Hy. right. exact Hy'. }
  apply Hrows. intros y Hy. apply Hin. exact Hy.
Qed.

Lemma nth_pack_pixels (img : Image) (x y : Z) :
  0 <= x < width img -> 0 <= y < height img ->
  nth (Z.to_nat (y * width img + x)) (pack_pixels img) 0
  = pack (getpixel img x y).
Proof.
  intros Hx Hy. rewrite pack_pixels_map.
  change 0 with (pack transparent) at 1.
  rewrite map_nth. f_equal. apply nth_getdata; assumption.
Qed.

(** X7. When the scaled side is at least the target side, the canvas
    has no padding: it shows the middle of the scaled picture, cut at
    both ends, starting at row (or column) c = ceil((s - target) / 2). *)
Theorem overflow_is_cropped (img : Image) (desired_width desired_height s : Z) :
  0 < desired_width -> 0 < desired_height ->
  (width img >= height img ->
   scaled (height img) desired_width (width img) = Ok s ->
   desired_height <= s ->
   let c := - ((desired_height - s) / 2) in
   0 <= c /\ c + desired_height <= s
   /\ exists out,
       resize_to_keep_aspect_ratio img desired_width desired_height = Ok out
       /\ forall x y,
           0 <= x < desired_width -> 0 <= y < desired_height ->
           getpixel out x y = BICUBIC img desired_width s x (y + c))
  /\ (width img < height img ->
      scaled (width img) desired_height (height img) = Ok s ->
      desired_width <= s ->
      let c := - ((desired_width - s) / 2) in
      0 <= c /\ c + desired_width <= s
      /\ exists out,
          resize_to_keep_aspect_ratio img desired_width desired_height = Ok out
          /\ forall x y,
              0 <= x < desired_width -> 0 <= y < desired_height ->
              getpixel out x y = BICUBIC img s desired_height (x + c) y).
Proof.
  intros Hdw Hdh. split.
  - intros Hwide Hs Hover c.
    assert (Hc : 0 <= c /\ c + desired_height <= s).
    { unfold c. Z.div_mod_to_equations. lia. }
    split; [apply Hc |]. split; [apply Hc |].
    pose proof (resize_wide img desired_width desired_height s Hdw Hdh) as H.
    destruct (Z.geb_spec (width img) (height img)); [| lia].
    specialize (H eq_refl Hs).
    destruct (Z.ltb_spec s 1); [lia |].
    destruct H as (out & Hout & _ & _ & Hpx).
    exists out. split; [exact Hout |].
    intros x y Hx Hy. rewrite Hpx. cbv zeta.
    fold c. replace ((desired_height - s) / 2) with (- c) by (unfold c; lia).
    destruct (Z.leb_spec 0 x); [| lia].
    destruct (Z.ltb_spec x desired_width); [| lia].
    destruct (Z.leb_spec (- c) y); [| lia].
    destruct (Z.ltb_spec y (- c + s)); [| lia].
    cbn [andb]. f_equal. lia.
  - intros Htall Hs Hover c.
    assert (Hc : 0 <= c /\ c + desired_width <= s).
    { unfold c. Z.div_mod_to_equations. lia. }
    split; [apply Hc |]. split; [apply Hc |].
    pose proof (resize_tall img desired_width desired_height s Hdw Hdh) as H.
    destruct (Z.geb_spec (width img) (height img)); [lia |].
    specialize (H eq_refl Hs).
    destruct (Z.ltb_spec s 1); [lia |].
    destruct H as (out & Hout & _ & _ & Hpx).
    exists out. split; [exact Hout |].
    intros x y Hx Hy. rewrite Hpx. cbv zeta.
    fold c. replace ((desired_width - s) / 2) with (- c) by (unfold c; lia).
    destruct (Z.leb_spec (- c) x); [| lia].
    destruct (Z.ltb_spec x (- c + s)); [| lia].
    destruct (Z.leb_spec 0 y); [| lia].
    destruct (Z.ltb_spec y desired_height); [| lia].
    cbn [andb]. f_equal. lia.
Qed.

(** X8. When the scaled side s is between 1 and the target side, the
    picture is letterboxed in the middle: the padding before it is
    floor((target - s) / 2) rows (or columns), the padding after it is
    the same or one more, and in the packed sequence every padding value
    is 0 while the values between are the packed pixels of the scaled
    picture. *)
Theorem letterbox_is_centred (img : Image) (desired_width desired_height s : Z) :
  0 < desired_width -> 0 < desired_height ->
  (width img >= height img ->
   scaled (height img) desired_width (width img) = Ok s ->
   1 <= s <= desired_height ->
   let top := (desired_height - s) / 2 in
   let bottom := desired_height - s - top in
   0 <= top <= bottom /\ bottom <= top + 1
   /\ exists out,
       resize_to_keep_aspect_ratio img desired_width desired_height = Ok out
       /\ forall x y,
           0 <= x < desired_width -> 0 <= y < desired_height ->
           nth (Z.to_nat (y * desired_width + x)) (pack_pixels out) 0
           = if (top <=? y) && (y <? top + s)
             then pack (BICUBIC img desired_width s x (y - top))
             else 0)
  /\ (width img < height img ->
      scaled (width img) desired_height (height img) = Ok s ->
      1 <= s <= desired_width ->
      let left := (desired_width - s) / 2 in
      let right := desired_width - s - left in
      0 <= left <= right /\ right <= left + 1
      /\ exists out,
          resize_to_keep_aspect_ratio img desired_width desired_height = Ok out
          /\ forall x y,
              0 <= x < desired_width -> 0 <= y < desired_height ->
              nth (Z.to_nat (y * desired_width + x)) (pack_pixels out) 0
              = if (left <=? x) && (x <? left + s)
                then pack (BICUBIC img s desired_height (x - left) y)
                else 0).
Proof.
  intros Hdw Hdh. split.
  - intros Hwide Hs Hfit top bottom.
    assert (Hc : 0 <= top <= bottom /\ bottom <= top + 1).
    { unfold bottom, top. Z.div_mod_to_equations. lia. }
    split; [apply Hc |]. split; [apply Hc |].
    pose proof (resize_wide img desired_width desired_height s Hdw Hdh) as H.
    destruct (Z.geb_spec (width img) (height img)); [| lia].
    specialize (H eq_refl Hs).
    destruct (Z.ltb_spec s 1); [lia |].
    destruct H as (out & Hout & Hw & Hh & Hpx).
    exists out. split; [exact Hout |].
    intros x y Hx Hy. rewrite <- Hw at 1.
    rewrite nth_pack_pixels by lia. rewrite Hpx. cbv zeta. fold top.
    destruct (Z.leb_spec 0 x); [| lia].
    destruct (Z.ltb_spec x desired_width); [| lia].
    cbn [andb]. destruct ((top <=? y) && (y <? top + s)); reflexivity.
  - intros Htall Hs Hfit left right.
    assert (Hc : 0 <= left <= right /\ right <= left + 1).
    { unfold right, left. Z.div_mod_to_equations. lia. }
    split; [apply Hc |]. split; [apply Hc |].
    pose proof (resize_tall img desired_width desired_height s Hdw Hdh) as H.
    destruct (Z.geb_spec (width img) (height img)); [lia |].
    specialize (H eq_refl Hs).
    destruct (Z.ltb_spec s 1); [lia |].
    destruct H as (out & Hout & Hw & Hh & Hpx).
    exists out. split; [exact Hout |].
    intros x y Hx Hy. rewrite <- Hw at 1.
    rewrite nth_pack_pixels by lia. rewrite Hpx. cbv zeta. fold left.
    destruct (Z.leb_spec 0 y); [| lia].
    destruct (Z.ltb_spec y desired_height); [| lia].
    rewrite !andb_true_r.
    destruct ((left <=? x) && (x <? left + s)); reflexivity.
Qed.

(** X13. A source so elongated that its scaled side falls below one
    pixel cannot be rendered with the aspect ratio kept: when
    sourceHeight * desiredWidth < sourceWidth (or, for a source higher
    than wide, sourceWidth * desiredHeight < sourceHeight) the resizer
    raises Pillow's ValueError.  Sizes are below 2^25. *)
Theorem thin_source_refused (img : Image) (desired_width desired_height : Z) :
  0 < desired_width < 2 ^ 25 -> 0 < desired_height < 2 ^ 25 ->
  0 < width img < 2 ^ 25 -> 0 < height img < 2 ^ 25 ->
  (width img >= height img /\ height img * desired_width < width img)
  \/ (width img < height img /\ width img * desired_height < height img) ->
  resize_to_keep_aspect_ratio img desired_width desired_height
  = Raise (ValueError "height and width must be > 0").
Proof.
  intros Hdw Hdh Hw Hh Hthin.
  destruct Hthin as [[Hwide Hlt] | [Htall Hlt]].
  - destruct (scaled_bounds (height img) desired_width (width img))
      as (s & Hs & Hs0 & Hsb); try lia.
    rewrite Z.div_small in Hsb by lia.
    pose proof (resize_wide img desired_width desired_height s) as H.
    destruct (Z.geb_spec (width img) (height img)); [| lia].
    specialize (H ltac:(lia) ltac:(lia) eq_refl Hs).
    destruct (Z.ltb_spec s 1); [exact H | lia].
  - destruct (scaled_bounds (width img) desired_height (height img))
      as (s & Hs & Hs0 & Hsb); try lia.
    rewrite Z.div_small in Hsb by lia.
    pose proof (resize_tall img desired_width desired_height s) as H.
    destruct (Z.geb_spec (width img) (height img)); [lia |].
    specialize (H ltac:(lia) ltac:(lia) eq_refl Hs).
    destruct (Z.ltb_spec s 1); [exact H | lia].
Qed.

Lemma shr_1_even (m : Z) :
  0 <= m ->
  shr_1 {| shr_m := 2 * m; shr_r := false; shr_s := false |}
  = {| shr_m := m; shr_r := false; shr_s := false |}.
Proof.
  intros Hm. destruct m as [| p | p]; [reflexivity | reflexivity | lia].
Qed.

Lemma iter_pos_shr_even (p : positive) :
  forall m, 0 <= m ->
            iter_pos shr_1 p
              {| shr_m := m * 2 ^ Zpos p; shr_r := false; shr_s := false |}
            = {| shr_m := m; shr_r := false; shr_s := false |}.
Proof.
  induction p as [p IH | p IH |]; intros m Hm; cbn [iter_pos].
  - replace (m * 2 ^ Z.pos p~1) with (2 * (m * 2 ^ Zpos p * 2 ^ Zpos p)).
    + assert (0 < 2 ^ Zpos p) by (apply Z.pow_pos_nonneg; lia).
      rewrite shr_1_even by nonneg. rewrite IH by nonneg. apply IH. exact Hm.
    + replace (Z.pos p~1) with (1 + Z.pos p + Z.pos p) by lia.
      rewrite !Z.pow_add_r by lia. change (2 ^ 1) with 2. ring.
  - replace (m * 2 ^ Z.pos p~0) with (m * 2 ^ Zpos p * 2 ^ Zpos p).
    + assert (0 < 2 ^ Zpos p) by (apply Z.pow_pos_nonneg; lia).
      rewrite IH by nonneg. apply IH. exact Hm.
    + replace (Z.pos p~0) with (Z.pos p + Z.pos p) by lia.
      rewrite Z.pow_add_r by lia. ring.
  - change (2 ^ 1) with 2. rewrite Z.mul_comm. apply shr_1_even. exact Hm.
Qed.

(** Rounding a mantissa whose surplus bits are all zero drops them and
    changes nothing else. *)
Lemma binary_round_aux_shift (m e n : Z) :
  2 ^ 52 <= m < 2 ^ 53 -> 0 <= n -> -1000 <= e -> e + n <= 900 ->
  binary_round_aux 53 1024 false (m * 2 ^ n) e loc_Exact
  = S754_finite false (Z.to_pos m) (e + n).
Proof.
  intros Hm Hn He Hen.
  destruct n as [| p | p]; [| | lia].
  - rewrite Z.mul_1_r, Z.add_0_r. apply binary_round_aux_exact; lia.
  - assert (Hp : 0 < 2 ^ Zpos p) by (apply Z.pow_pos_nonneg; lia).
    assert (Hd : Zdigits2 (m * 2 ^ Zpos p) = 53 + Zpos p).
    { apply Zdigits2_unique; [lia |].
      replace (53 + Zpos p - 1) with (52 + Zpos p) by lia.
      rewrite !Z.pow_add_r by lia. nia. }
    unfold binary_round_aux, shr_fexp. rewrite Hd.
    rewrite fexp_normal by lia.
    replace (53 + Zpos p + e - 53 - e) with (Zpos p) by lia.
    cbn [shr shr_record_of_loc]. rewrite iter_pos_shr_even by lia.
    cbn [shr_m loc_of_shr_record round_nearest_even].
    rewrite (Zdigits2_unique m 53) by lia.
    rewrite fexp_normal by lia.
    replace (53 + (e + Zpos p) - 53 - (e + Zpos p)) with 0 by lia.
    cbn [shr shr_record_of_loc shr_m].
    destruct m as [| q | q]; [lia | | lia].
    destruct (Z.leb_spec (e + Zpos p) (1024 - 53)); [reflexivity | lia].
Qed.

(** Two normal mantissas of the same number differ by a nonnegative
    power of two when the first is the larger. *)
Lemma pow2_gap (c j k : Z) :
  0 < c -> 0 <= j -> 0 <= k -> 2 ^ 52 <= c * 2 ^ j -> c * 2 ^ k < 2 ^ 53 ->
  k <= j.
Proof.
  intros Hc Hj Hk Hlo Hhi.
  destruct (Z.le_gt_cases k j) as [Hle | Hgt]; [exact Hle | exfalso].
  assert (H : 2 ^ k = 2 ^ j * 2 ^ (k - j)).
  { rewrite <- Z.pow_add_r by lia. f_equal. lia. }
  assert (H2 : 2 ^ 1 <= 2 ^ (k - j)) by (apply Z.pow_le_mono_r; lia).
  change (2 ^ 1) with 2 in H2.
  assert (H3 : 0 < 2 ^ j) by (apply Z.pow_pos_nonneg; lia).
  change (2 ^ 53) with (2 * 2 ^ 52) in Hhi.
  rewrite H in Hhi. nia.
Qed.

(** The quotient of an exact multiple is exact. *)
Lemma truediv_exact (c den : Z) :
  0 < c -> 0 < den -> c * den < 2 ^ 53 ->
  truediv (c * den) den = Ok (float_of_int c).
Proof.
  intros Hc Hden Hnum.
  assert (Hc53 : 0 < c < 2 ^ 53) by nia.
  assert (Hd53 : 0 < den < 2 ^ 53) by nia.
  assert (Hn53 : 0 < c * den < 2 ^ 53) by nia.
  destruct (float_of_int_normal (c * den) Hn53)
    as (m1 & e1 & E1 & Hm1 & He1 & Hv1).
  destruct (float_of_int_normal den Hd53) as (m2 & e2 & E2 & Hm2 & He2 & Hv2).
  destruct (float_of_int_normal c Hc53) as (mc & ec & Ec & Hmc & Hec & Hvc).
  unfold truediv. destruct (Z.eqb_spec den 0); [lia |].
  rewrite E1, E2, Ec. unfold prec, emax. cbn [SFdiv xorb].
  unfold SFdiv_core_binary.
  rewrite (Zdigits2_unique (Zpos m1) 53), (Zdigits2_unique (Zpos m2) 53) by lia.
  rewrite fexp_normal by lia.
  rewrite Z.min_l by lia.
  replace (e1 - e2 - (53 + e1 - (53 + e2) - 53)) with 53 by lia.
  cbv iota.
  change (IntDef.Z.div_eucl (IntDef.Z.shiftl (Z.pos m1) 53) (Z.pos m2))
    with (Z.div_eucl (Z.shiftl (Z.pos m1) 53) (Z.pos m2)).
  rewrite Z.shiftl_mul_pow2 by lia.
  set (j := 53 - e1 + e2).
  assert (Hj : 1 <= j) by (unfold j; lia).
  assert (Hprod : Zpos m1 * 2 ^ 53 = c * 2 ^ j * Zpos m2).
  { rewrite Hv1, Hv2. unfold j.
    replace (53 - e1 + e2) with (53 + (- e1) + - (- e2)) by lia.
    assert (H2 : 2 ^ (53 + - e1) = 2 ^ (53 + - e1 + - - e2) * 2 ^ (- e2)).
    { rewrite <- Z.pow_add_r by lia. f_equal. lia. }
    replace (c * den * 2 ^ (- e1) * 2 ^ 53)
      with (c * den * 2 ^ (53 + - e1)) by (rewrite Z.pow_add_r by lia; ring).
    rewrite H2. ring. }
  assert (Hdiv : Z.div_eucl (Zpos m1 * 2 ^ 53) (Zpos m2) = (c * 2 ^ j, 0)).
  { rewrite Hprod.
    pose proof (Z.div_mul (c * 2 ^ j) (Zpos m2) ltac:(lia)) as Hq.
    pose proof (Z.mod_mul (c * 2 ^ j) (Zpos m2) ltac:(lia)) as Hr.
    unfold Z.div, Z.modulo in Hq, Hr.
    destruct (Z.div_eucl (c * 2 ^ j * Zpos m2) (Zpos m2)) as [q r].
    congruence. }
  rewrite Hdiv.
  assert (Hloc : new_location (Zpos m2) 0 = loc_Exact).
  { unfold new_location. destruct (Z.even (Zpos m2)); reflexivity. }
  rewrite Hloc.
  assert (Hq52 : 2 ^ 52 <= c * 2 ^ j).
  { assert (0 < c * 2 ^ j) by (apply Z.mul_pos_pos; [lia | apply Z.pow_pos_nonneg; lia]).
    change (2 ^ 53) with (2 * 2 ^ 52) in *. nia. }
  assert (Hgap : - ec <= j).
  { apply (pow2_gap c); try lia. }
  replace (c * 2 ^ j) with (Zpos mc * 2 ^ (j + ec)).
  2:{ rewrite Hvc. rewrite <- Z.mul_assoc, <- Z.pow_add_r by lia.
      f_equal. f_equal. lia. }
  rewrite binary_round_aux_shift by (unfold j; lia).
  rewrite Pos2Z.id. f_equal. f_equal. unfold j. lia.
Qed.

(** The product of an integer and an integral float is exact while it
    stays below 2^53. *)
Lemma mul_int_float_exact (n c : Z) :
  0 < n -> 0 < c -> n * c < 2 ^ 53 ->
  mul_int_float n (float_of_int c) = float_of_int (n * c).
Proof.
  intros Hn Hc Hnc.
  assert (Hc53 : 0 < c < 2 ^ 53) by nia.
  assert (Hn53 : 0 < n < 2 ^ 53) by nia.
  assert (Hv53 : 0 < n * c < 2 ^ 53) by nia.
  destruct (float_of_int_normal n Hn53) as (mn & en & En & Hmn & Hen & Hvn).
  destruct (float_of_int_normal c Hc53) as (mc & ec & Ec & Hmc & Hec & Hvc).
  destruct (float_of_int_normal (n * c) Hv53)
    as (mv & ev & Ev & Hmv & Hev & Hvv).
  unfold mul_int_float. rewrite En, Ec, Ev. unfold prec, emax.
  cbn [SFmul xorb]. rewrite Pos2Z.inj_mul.
  set (j := - en - ec).
  assert (Hj : 0 <= j) by (unfold j; lia).
  assert (Hprod : Zpos mn * Zpos mc = n * c * 2 ^ j).
  { rewrite Hvn, Hvc. unfold j.
    replace (- en - ec) with (- en + - ec) by lia.
    rewrite Z.pow_add_r by lia. ring. }
  assert (Hlo : 2 ^ 52 <= n * c * 2 ^ j).
  { rewrite <- Hprod. change (2 ^ 52) with (1 * 2 ^ 52) at 1.
    apply Z.mul_le_mono_nonneg; lia. }
  assert (Hgap : - ev <= j) by (apply (pow2_gap (n * c)); lia).
  rewrite Hprod.
  replace (n * c * 2 ^ j) with (Zpos mv * 2 ^ (j + ev)).
  2:{ rewrite Hvv. rewrite <- Z.mul_assoc, <- Z.pow_add_r by lia.
      f_equal. f_equal. lia. }
  rewrite binary_round_aux_shift by (unfold j; lia).
  rewrite Pos2Z.id. f_equal. unfold j. lia.
Qed.

(** Converting an integer below 2^53 to a float and back gives it
    again. *)
Lemma int_of_float_of_int (v : Z) :
  0 < v < 2 ^ 53 -> int_of_float (float_of_int v) = Ok v.
Proof.
  intros Hv.
  destruct (float_of_int_normal v Hv) as (m & e & E & Hm & He & Hval).
  rewrite E. unfold int_of_float. f_equal.
  destruct e as [| p | p]; [| lia |].
  - rewrite Z.shiftl_0_r, Hval. change (2 ^ (- 0)) with 1. lia.
  - rewrite Z.shiftr_div_pow2 by lia. rewrite Hval.
    change (- Z.neg p) with (Zpos p).
    apply Z.div_mul. apply Z.pow_nonzero; lia.
Qed.

(** An integer scale factor is applied exactly. *)
Lemma scaled_exact (n c den : Z) :
  0 < n -> 0 < c -> 0 < den -> c * den < 2 ^ 53 -> n * c < 2 ^ 53 ->
  scaled n (c * den) den = Ok (n * c).
Proof.
  intros Hn Hc Hden Hnum Hnc. unfold scaled.
  rewrite truediv_exact by assumption. cbn [bind].
  rewrite mul_int_float_exact by assumption.
  apply int_of_float_of_int. nia.
Qed.
(** X9. An integer zoom is applied exactly: for a target width that is
    c times the source width the scaled height is exactly c times the
    source height, and likewise for a target height that is c times the
    source height.  Sizes are below 2^53. *)
Theorem integer_factor_exact (img : Image) (c : Z) :
  0 < c -> 0 < width img -> 0 < height img ->
  c * width img < 2 ^ 53 -> c * height img < 2 ^ 53 ->
  scaled (height img) (c * width img) (width img) = Ok (c * height img)
  /\ scaled (width img) (c * height img) (height img) = Ok (c * width img).
Proof.
  intros Hc Hw Hh Hcw Hch. split.
  - rewrite (Z.mul_comm c (height img)). apply scaled_exact; lia.
  - rewrite (Z.mul_comm c (width img)). apply scaled_exact; lia.
Qed.

(** X10. For a target that is the source enlarged by an integer factor
    in both directions, keeping the aspect ratio changes nothing: both
    ways of resizing succeed and give the same packed sequence. *)
Theorem integer_zoom_same_as_stretch (img : Image) (c : Z) :
  0 < c -> 0 < width img -> 0 < height img ->
  c * width img < 2 ^ 53 -> c * height img < 2 ^ 53 ->
  exists kept stretched,
    resized img (c * width img) (c * height img) true = Ok kept
    /\ resized img (c * width img) (c * height img) false = Ok stretched
    /\ pack_pixels kept = pack_pixels stretched.
Proof.
  intros Hc Hw Hh Hcw Hch.
  assert (Hdw : 0 < c * width img) by lia.
  assert (Hdh : 0 < c * height img) by lia.
  unfold resized. cbn [negb]. unfold resize at 1.
  destruct (Z.ltb_spec (c * width img) 1); [lia |].
  destruct (Z.ltb_spec (c * height img) 1); [lia |]. cbn [orb].
  set (stretched := {| width := c * width img; height := c * height img;
                       getpixel := BICUBIC img (c * width img)
                                           (c * height img) |}).
  destruct (Z.geb_spec (width img) (height img)) as [Hwide | Htall].
  - pose proof (resize_wide img (c * width img) (c * height img)
                            (c * height img) Hdw Hdh) as Hres.
    destruct (Z.geb_spec (width img) (height img)); [| lia].
    specialize (Hres eq_refl).
    rewrite (Z.mul_comm c (height img)) in Hres at 1.
    specialize (Hres (scaled_exact _ _ _ Hh Hc Hw Hcw
                                ltac:(rewrite Z.mul_comm; exact Hch))).
    destruct (Z.ltb_spec (c * height img) 1); [lia |].
    destruct Hres as (kept & Hk & Hkw & Hkh & Hpx).
    exists kept, stretched. split; [exact Hk |]. split; [reflexivity |].
    rewrite !pack_pixels_map. f_equal.
    apply getdata_ext; [rewrite Hkw; reflexivity | rewrite Hkh; reflexivity |].
    intros x y Hx Hy. rewrite Hkw in Hx. rewrite Hkh in Hy.
    rewrite Hpx. cbv zeta. rewrite Z.sub_diag. change (0 / 2) with 0.
    destruct (Z.leb_spec 0 x); [| lia].
    destruct (Z.ltb_spec x (c * width img)); [| lia].
    destruct (Z.leb_spec 0 y); [| lia].
    destruct (Z.ltb_spec y (0 + c * height img)); [| lia].
    cbn [andb]. rewrite Z.sub_0_r. reflexivity.
  - pose proof (resize_tall img (c * width img) (c * height img)
                            (c * width img) Hdw Hdh) as Hres.
    destruct (Z.geb_spec (width img) (height img)); [lia |].
    specialize (Hres eq_refl).
    rewrite (Z.mul_comm c (width img)) in Hres at 1.
    specialize (Hres (scaled_exact _ _ _ Hw Hc Hh Hch
                                ltac:(rewrite Z.mul_comm; exact Hcw))).
    destruct (Z.ltb_spec (c * width img) 1); [lia |].
    destruct Hres as (kept & Hk & Hkw & Hkh & Hpx).
    exists kept, stretched. split; [exact Hk |]. split; [reflexivity |].
    rewrite !pack_pixels_map. f_equal.
    apply getdata_ext; [rewrite Hkw; reflexivity | rewrite Hkh; reflexivity |].
    intros x y Hx Hy. rewrite Hkw in Hx. rewrite Hkh in Hy.
    rewrite Hpx. cbv zeta. rewrite Z.sub_diag. change (0 / 2) with 0.
    destruct (Z.leb_spec 0 x); [| lia].
    destruct (Z.ltb_spec x (0 + c * width img)); [| lia].
    destruct (Z.leb_spec 0 y); [| lia].
    destruct (Z.ltb_spec y (c * height img)); [| lia].
    cbn [andb]. rewrite Z.sub_0_r. reflexivity.
Qed.

(* ================================================================= *)
(** * The size of a body *)

Lemma digits_value_lower (ds : list Z) :
  Forall (fun d => 0 <= d < 36) ds -> ds <> [] -> last ds 0 <> 0 ->
  36 ^ (Z.of_nat (List.length ds) - 1) <= digits_value ds.
Proof.
  induction 1 as [| d ds Hd Hall IH]; intros Hne Hlast; [contradiction |].
  cbn [digits_value fold_right]. fold (digits_value ds).
  destruct ds as [| d' ds'].
  - cbn in Hlast. cbn. lia.
  - change (last (d :: d' :: ds') 0) with (last (d' :: ds') 0) in Hlast.
    specialize (IH ltac:(discriminate) Hlast).
    replace (Z.of_nat (List.length (d :: d' :: ds')) - 1)
      with (Z.succ (Z.of_nat (List.length (d' :: ds')) - 1))
      by (cbn [List.length]; lia).
    rewrite Z.pow_succ_r by (cbn [List.length]; lia). lia.
Qed.

Lemma length_string_of_list_ascii (l : list ascii) :
  String.length (string_of_list_ascii l) = List.length l.
Proof. induction l as [| c l IH]; cbn; congruence. Qed.

Lemma length_append (a b : string) :
  String.length (a ++ b) = (String.length a + String.length b)%nat.
Proof. induction a as [| c a IH]; cbn; congruence. Qed.

(** A value of 32 bits is written with one to seven characters. *)
Lemma base_repr_length (v : Z) :
  0 <= v < 2 ^ 32 ->
  exists s, Np.base_repr v 36 = Ok s
            /\ (1 <= String.length s <= 7)%nat.
Proof.
  intros Hv. unfold Np.base_repr.
  change (Z.of_nat (String.length Np.digits) <? 36) with false.
  change (36 <? 2) with false. cbv iota.
  rewrite Z.abs_eq by lia.
  assert (Hfuel : 0 <= v < 2 ^ Z.of_nat (Np.base_repr_fuel v)).
  { unfold Np.base_repr_fuel. split; [lia |].
    destruct (Z.eq_dec v 0) as [-> | Hnz]; [reflexivity |].
    rewrite Nat2Z.inj_succ, Z2Nat.id by apply Z.log2_nonneg.
    apply Z.log2_spec. lia. }
  destruct (base_repr_loop_spec _ v [] Hfuel)
    as (ds & Hloop & Hval & Hall & Hzero & Hlast).
  rewrite Hloop. cbn [app].
  destruct (Z.ltb_spec v 0) as [Hneg | _]; [lia |].
  destruct ds as [| d ds'].
  - exists "0". cbn. split; [reflexivity | lia].
  - set (ds := d :: ds') in *.
    assert (Hpos : 0 < v).
    { destruct (Z.eq_dec v 0) as [H0 | H0]; [| lia].
      specialize (Hzero H0). discriminate. }
    pose proof (digits_value_lower ds Hall ltac:(discriminate) (Hlast Hpos))
      as Hlow.
    assert (Hlen : (1 <= List.length ds <= 7)%nat).
    { split; [unfold ds; cbn; lia |].
      destruct (Nat.le_gt_cases (List.length ds) 7) as [Hle | Hgt];
        [exact Hle | exfalso].
      assert (36 ^ 7 <= 36 ^ (Z.of_nat (List.length ds) - 1))
        by (apply Z.pow_le_mono_r; lia).
      change (36 ^ 7) with 78364164096 in *.
      change (2 ^ 32) with 4294967296 in *. lia. }
    eexists. split.
    + unfold ds at 1. cbn [map]. fold ds. reflexivity.
    + change (Np.digit d :: map Np.digit ds') with (map Np.digit ds).
      rewrite length_string_of_list_ascii, length_rev, length_map.
      exact Hlen.
Qed.

Lemma mapM_base_repr_length (l : list Z) :
  Forall (fun v => 0 <= v < 2 ^ 32) l ->
  exists tokens,
    mapM (fun pixel => Np.base_repr pixel 36) l = Ok tokens
    /\ List.length tokens = List.length l
    /\ Forall (fun t => (1 <= String.length t <= 7)%nat) tokens.
Proof.
  induction 1 as [| v l Hv Hl IH].
  - exists []. cbn. auto.
  - destruct IH as (tokens & Hm & Hlen & Hall).
    destruct (base_repr_length v Hv) as (t & Ht & Htl).
    exists (t :: tokens). cbn [mapM]. rewrite Ht. cbn [bind].
    rewrite Hm. cbn [bind List.length]. auto.
Qed.

Lemma length_join (tokens : list string) :
  tokens <> [] ->
  Forall (fun t => (1 <= String.length t <= 7)%nat) tokens ->
  (1 <= String.length (join " " tokens) <= 8 * List.length tokens - 1)%nat.
Proof.
  intros Hne Hall. unfold join.
  induction Hall as [| t ts Ht Hts IH]; [contradiction |].
  destruct ts as [| t' ts'].
  - cbn [concat List.length]. lia.
  - specialize (IH ltac:(discriminate)).
    change (concat " " (t :: t' :: ts'))
      with (t ++ " " ++ concat " " (t' :: ts'))%string.
    rewrite !length_append. cbn [String.length].
    cbn [List.length] in *. lia.
Qed.

(** X14. A body of pixels is never empty and never longer than
    8 * n - 1 characters, where n = min(cap, width * height - i) is the
    number of pixels in the window: each value takes at most seven
    characters. *)
Theorem body_length_bound (img_url : string) (i cap width height : Z)
        (keep_aspect_ratio : bool) (st st1 : State) (arr : list Z) :
  reachable st ->
  0 <= i -> 0 < cap -> i < width * height ->
  handle_picture img_url width height keep_aspect_ratio st = (Ok arr, st1) ->
  exists body,
    get_picutre_pixels img_url i cap width height keep_aspect_ratio st
    = (PlainTextResponse body, st1)
    /\ 1 <= Z.of_nat (String.length body)
       <= 8 * Z.min cap (width * height - i) - 1.
Proof.
  intros Hreach Hi Hcap Hwh Hhandle.
  pose proof (reachable_coherent st Hreach) as Hco.
  pose proof (handle_picture_rendered _ _ _ _ _ _ _ Hco Hhandle) as Hr.
  apply rendered_shape in Hr.
  destruct Hr as (Hlen & _ & src & img & _ & _ & _ & Harr).
  destruct (slice_window arr i cap) as (Hslice & Hslen & _); [lia | lia |].
  set (buf := slice arr i (i + cap)) in *.
  assert (Hbuf : Forall (fun v => 0 <= v < 2 ^ 32) buf).
  { rewrite Hslice. apply Forall_forall. intros v Hv.
    apply In_firstn in Hv.
    assert (Hin : In v arr).
    { rewrite <- (firstn_skipn (Z.to_nat i) arr). apply in_or_app. right.
      exact Hv. }
    rewrite Harr in Hin. apply in_map_iff in Hin.
    destruct Hin as (p & <- & _). apply pack_range. }
  destruct (mapM_base_repr_length buf Hbuf) as (tokens & Hm & Htl & Hall).
  assert (Hne : tokens <> []).
  { intros ->. cbn in Htl. lia. }
  pose proof (length_join tokens Hne Hall) as Hj.
  exists (join " " tokens). split.
  - unfold get_picutre_pixels.
    destruct (Z.ltb_spec i 0); [lia |].
    destruct (Z.leb_spec cap 0); [lia |].
    destruct (Z.geb_spec i (width * height)); [lia |].
    rewrite Hhandle. fold buf. rewrite Hm. reflexivity.
  - rewrite <- Hlen, <- Hslen, <- Htl. lia.
Qed.

End App.

(* ================================================================= *)
(** * The properties at sample requests *)

(** The scenario of a 2x2 opaque red picture: every packed value is
    0xFFFF0000, and the four tokens all encode it. *)
Example red_scenario :
  pack red = 0xFFFF0000
  /\ fst (get_picutre_pixels host_up open_red NEAREST "u" 0 4 2 2 false
                             initial_state)
     = PlainTextResponse "1Z12NEO 1Z12NEO 1Z12NEO 1Z12NEO".
Proof. split; vm_compute; reflexivity. Qed.

(** The binary64 product can fall just below the exact quotient:
    49 * (1 / 49) is less than 1, and is cut to 0. *)
Example scaled_one_below_floor :
  scaled 49 1 49 = Ok 0 /\ 49 * 1 / 49 = 1.
Proof. split; vm_compute; reflexivity. Qed.

(** An eleventh url pushes the first one out of the fetch cache. *)
Example eleventh_url_evicts_first :
  keys (fetch_cache (after_requests host_up open_red NEAREST eleven_urls))
  = ["k"; "j"; "i"; "h"; "g"; "f"; "e"; "d"; "c"; "b"].
Proof. vm_compute. reflexivity. Qed.

Lemma pack_round_trip_witness :
  let v := pack (255, 0, 0, 255) in
  v = Z.lor (Z.lor (Z.lor (Z.shiftl 255 24) (Z.shiftl 255 16)) (Z.shiftl 0 8)) 0
  /\ 0 <= v < 2 ^ 32
  /\ Z.land (Z.shiftr v 24) 255 = 255
  /\ Z.land (Z.shiftr v 16) 255 = 255
  /\ Z.land (Z.shiftr v 8) 255 = 0
  /\ Z.land v 255 = 0.
Proof. apply (pack_round_trip 255 0 0 255); lia. Defined.

Lemma validation_order_witness :
  get_picutre_pixels host_up open_red NEAREST "u" (-1) 0 0 0 false initial_state
  = (HTTPException 400 "Start index less than zero", initial_state)
  /\ get_picutre_pixels host_up open_red NEAREST "u" 0 0 0 0 false initial_state
     = (HTTPException 400 "Buffer capacity is less or equal zero",
        initial_state)
  /\ get_picutre_pixels host_up open_red NEAREST "u" 4 1 2 2 false initial_state
     = (HTTPException 400 "Start index is more than width * height",
        initial_state).
Proof.
  split; [| split].
  - apply (validation_order host_up open_red NEAREST "u" (-1) 0 0 0 false
                            initial_state). lia.
  - apply (validation_order host_up open_red NEAREST "u" 0 0 0 0 false
                            initial_state); lia.
  - apply (validation_order host_up open_red NEAREST "u" 4 1 2 2 false
                            initial_state); lia.
Defined.

(** C10, as stated, fails for a capacity that is not positive: the
    capacity check comes before the area check. *)
Lemma capacity_checked_before_area :
  0 * 0 <= 0 /\ 0 <= 0
  /\ fst (get_picutre_pixels host_up open_red NEAREST "u" 0 0 0 0 false
                             initial_state)
     <> HTTPException 400 "Start index is more than width * height".
Proof. split; [lia |]. split; [lia |]. vm_compute. discriminate. Qed.

Lemma empty_area_rejected_witness :
  0 * 5 <= 0
  /\ (exists detail,
         get_picutre_pixels host_up open_red NEAREST "u" 0 1 0 5 false
                            initial_state
         = (HTTPException 400 detail, initial_state))
  /\ (0 <= 0 -> 0 < 1 ->
      get_picutre_pixels host_up open_red NEAREST "u" 0 1 0 5 false
                         initial_state
      = (HTTPException 400 "Start index is more than width * height",
         initial_state)).
Proof.
  split; [lia |].
  apply (empty_area_rejected host_up open_red NEAREST "u" 0 1 0 5 false
                             initial_state). lia.
Defined.


Lemma failed_fetch_not_cached_witness :
  let st' := snd (fetch_picture host_down open_red "u" initial_state) in
  fetch_picture host_down open_red "u" initial_state
  = (Raise ConnectionError, st')
  /\ entries (fetch_cache st') = entries (fetch_cache initial_state)
  /\ uses (fetch_cache st') = uses (fetch_cache initial_state)
  /\ ~ In "u" (keys (fetch_cache st'))
  /\ network_log st' = "u" :: network_log initial_state
  /\ network_log (snd (fetch_picture host_down open_red "u" st'))
     = "u" :: network_log st'.
Proof.
  intros st'.
  assert (H : fetch_picture host_down open_red "u" initial_state
              = (Raise ConnectionError, st')) by (vm_compute; reflexivity).
  split; [exact H |].
  exact (failed_fetch_not_cached host_down open_red "u" initial_state st'
                                 ConnectionError H).
Defined.


Lemma window_tokens_witness :
  let st := after_requests host_up open_red NEAREST ["u"] in
  let arr := [4294901760; 4294901760; 4294901760; 4294901760] in
  let st' := snd (handle_picture host_up open_red NEAREST "u" 2 2 false st) in
  handle_picture host_up open_red NEAREST "u" 2 2 false st = (Ok arr, st')
  /\ exists tokens,
      get_picutre_pixels host_up open_red NEAREST "u" 1 100 2 2 false st
      = (PlainTextResponse (join " " tokens), st')
      /\ split " " (join " " tokens) = tokens
      /\ Z.of_nat (List.length tokens) = Z.min 100 (2 * 2 - 1)
      /\ forall j, 0 <= j < Z.min 100 (2 * 2 - 1) ->
                   base36_numeral (nth (Z.to_nat (1 + j)) arr 0)
                                  (nth (Z.to_nat j) tokens "").
Proof.
  intros st arr st'.
  assert (H : handle_picture host_up open_red NEAREST "u" 2 2 false st
              = (Ok arr, st')) by (vm_compute; reflexivity).
  split; [exact H |].
  apply (window_tokens host_up open_red NEAREST "u" 1 100 2 2 false st st' arr).
  - apply reachable_after_requests.
  - lia.
  - lia.
  - lia.
  - exact H.
Defined.

Lemma lru_eviction_witness :
  let st := after_requests host_up open_red NEAREST eleven_urls in
  Z.of_nat (List.length (entries (fetch_cache st))) <= FETCH_CACHE_SIZE
  /\ Z.of_nat (List.length (entries (handle_cache st))) <= HANDLE_CACHE_SIZE
  /\ keys (fetch_cache st) = recent String.eqb FETCH_CACHE_SIZE (fetch_cache st)
  /\ (exists st',
         fetch_picture host_up open_red "k" st = (Ok red_2x2, st')
         /\ network_log st' = network_log st
         /\ entries (fetch_cache st')
            = ("k", red_2x2)
                :: remove_key String.eqb "k" (entries (fetch_cache st)))
  /\ network_log (snd (fetch_picture host_up open_red "a" st))
     = "a" :: network_log st.
Proof.
  intros st.
  destruct (lru_eviction host_up open_red NEAREST st
                         (reachable_after_requests _ _ _ eleven_urls))
    as ((Hf & Hh) & (Hrf & _) & Hhit & Hmiss & _).
  split; [exact Hf |]. split; [exact Hh |]. split; [exact Hrf |].
  split.
  - apply Hhit. vm_compute. left. reflexivity.
  - apply Hmiss. vm_compute. intuition discriminate.
Defined.

(** C5, as stated, fails for a 3x2 source and a desired width of 4: the
    scaled height is 2, and 2 is not a nearest integer to 2 * 4 / 3. *)
Lemma truncation_not_rounding :
  width gradient_3x2 >= height gradient_3x2
  /\ scaled (height gradient_3x2) 4 (width gradient_3x2) = Ok 2
  /\ ~ (exists s, scaled (height gradient_3x2) 4 (width gradient_3x2) = Ok s
                  /\ nearest_to_quotient s (height gradient_3x2 * 4)
                                         (width gradient_3x2)).
Proof.
  split; [cbn; lia |]. split; [vm_compute; reflexivity |].
  intros (s & Hs & Hn).
  assert (H2 : scaled (height gradient_3x2) 4 (width gradient_3x2) = Ok 2)
    by (vm_compute; reflexivity).
  rewrite H2 in Hs. injection Hs as <-.
  unfold nearest_to_quotient in Hn. cbn in Hn. lia.
Qed.

Lemma aspect_fit_layout_witness :
  (exists s,
      scaled (height gradient_3x2) 4 (width gradient_3x2) = Ok s
      /\ height gradient_3x2 * 4 / width gradient_3x2 - 1 <= s
         <= height gradient_3x2 * 4 / width gradient_3x2
      /\ if s <? 1
         then resize_to_keep_aspect_ratio NEAREST gradient_3x2 4 4
              = Raise (ValueError "height and width must be > 0")
         else exists out,
             resize_to_keep_aspect_ratio NEAREST gradient_3x2 4 4 = Ok out
             /\ width out = 4 /\ height out = 4
             /\ forall x y,
                 getpixel out x y
                 = let oy := (4 - s) / 2 in
                   if (0 <=? x) && (x <? 4) && (oy <=? y) && (y <? oy + s)
                   then NEAREST gradient_3x2 4 s x (y - oy)
                   else transparent)
  /\ (exists s,
         scaled (width gradient_2x3) 4 (height gradient_2x3) = Ok s
         /\ width gradient_2x3 * 4 / height gradient_2x3 - 1 <= s
            <= width gradient_2x3 * 4 / height gradient_2x3
         /\ if s <? 1
            then resize_to_keep_aspect_ratio NEAREST gradient_2x3 4 4
                 = Raise (ValueError "height and width must be > 0")
            else exists out,
                resize_to_keep_aspect_ratio NEAREST gradient_2x3 4 4 = Ok out
                /\ width out = 4 /\ height out = 4
                /\ forall x y,
                    getpixel out x y
                    = let ox := (4 - s) / 2 in
                      if (ox <=? x) && (x <? ox + s) && (0 <=? y) && (y <? 4)
                      then NEAREST gradient_2x3 s 4 (x - ox) y
                      else transparent).
Proof.
  split.
  - apply (aspect_fit_layout NEAREST gradient_3x2 4 4); cbn; lia.
  - apply (aspect_fit_layout NEAREST gradient_2x3 4 4); cbn; lia.
Defined.

(** C6, as stated, fails for a 2x2 source and a 4x1 target: the scaled
    height is 4. *)
Lemma scaled_height_exceeds_target :
  width red_2x2 >= height red_2x2 /\ 0 < 4 /\ 0 < 1
  /\ scaled (height red_2x2) 4 (width red_2x2) = Ok 4
  /\ ~ (exists s, scaled (height red_2x2) 4 (width red_2x2) = Ok s /\ s <= 1).
Proof.
  split; [cbn; lia |]. split; [lia |]. split; [lia |].
  split; [vm_compute; reflexivity |].
  intros (s & Hs & Hle).
  assert (H4 : scaled (height red_2x2) 4 (width red_2x2) = Ok 4)
    by (vm_compute; reflexivity).
  rewrite H4 in Hs. injection Hs as <-. lia.
Qed.

Lemma scaled_side_within_witness :
  (exists s, scaled (height gradient_3x2) 4 (width gradient_3x2) = Ok s
             /\ 0 <= s <= 4)
  /\ (exists s, scaled (width gradient_2x3) 4 (height gradient_2x3) = Ok s
                /\ 0 <= s <= 4).
Proof.
  split.
  - apply (scaled_side_within gradient_3x2 4 4); cbn; lia.
  - apply (scaled_side_within gradient_2x3 4 4); cbn; lia.
Defined.

(* ================================================================= *)
(** * The further properties at sample requests *)

Lemma repeat_request_from_cache_witness :
  let st1 := snd (handle_picture host_up open_red NEAREST "u" 2 2 false
                                 initial_state) in
  let again := get_picutre_pixels host_up open_red NEAREST "u" 0 4 2 2 false
                                  st1 in
  fst again
  = fst (get_picutre_pixels host_up open_red NEAREST "u" 0 4 2 2 false
                            initial_state)
  /\ network_log (snd again) = network_log st1
  /\ fetch_cache (snd again) = fetch_cache st1
  /\ misses (handle_cache (snd again)) = misses (handle_cache st1)
  /\ hits (handle_cache (snd again)) = hits (handle_cache st1) + 1.
Proof.
  intros st1.
  apply (repeat_request_from_cache
           host_up open_red NEAREST "u" 0 4 2 2 false initial_state st1
           [4294901760; 4294901760; 4294901760; 4294901760]).
  - vm_compute. reflexivity.
  - lia.
  - lia.
  - lia.
Defined.

Lemma failed_render_not_cached_witness :
  let key := ("u", 2, 2, false) in
  let st' := snd (handle_picture host_down open_red NEAREST "u" 2 2 false
                                 initial_state) in
  let st'' := snd (handle_picture host_down open_red NEAREST "u" 2 2 false
                                  st') in
  handle_picture host_down open_red NEAREST "u" 2 2 false initial_state
  = (Raise ConnectionError, st')
  /\ entries (handle_cache st') = entries (handle_cache initial_state)
  /\ ~ In key (keys (handle_cache st'))
  /\ misses (handle_cache st') = misses (handle_cache initial_state) + 1
  /\ hits (fetch_cache st'') + misses (fetch_cache st'')
     = hits (fetch_cache st') + misses (fetch_cache st') + 1.
Proof.
  intros key st' st''.
  assert (H : handle_picture host_down open_red NEAREST "u" 2 2 false
                             initial_state
              = (Raise ConnectionError, st')) by (vm_compute; reflexivity).
  split; [exact H |].
  exact (failed_render_not_cached host_down open_red NEAREST "u" 2 2 false
                                  initial_state st' ConnectionError H).
Defined.

Lemma cache_info_accounting_witness :
  let st := after_requests host_up open_red NEAREST eleven_urls in
  misses (fetch_cache st) = Z.of_nat (List.length (network_log st))
  /\ hits (fetch_cache st) + misses (fetch_cache st) = misses (handle_cache st)
  /\ 0 <= hits (fetch_cache st)
  /\ 0 <= hits (handle_cache st).
Proof.
  intros st.
  apply (cache_info_accounting host_up open_red NEAREST st).
  apply reachable_after_requests.
Defined.

Lemma negative_dimensions_unhandled_witness :
  let reply := get_picutre_pixels host_up open_red NEAREST "u" 0 1 (-1) (-1)
                                  false initial_state in
  (exists msg, fst reply = Uncaught (ValueError msg))
  /\ entries (handle_cache (snd reply)) = entries (handle_cache initial_state)
  /\ In "u" (keys (fetch_cache (snd reply))).
Proof.
  apply (negative_dimensions_unhandled
           host_up open_red NEAREST "u" 0 1 (-1) (-1) false initial_state
           red_2x2).
  - apply reachable_initial.
  - lia.
  - lia.
  - lia.
  - lia.
  - lia.
  - vm_compute. reflexivity.
Defined.

Lemma error_body_iff_render_failed_witness :
  let body := "!Connection error while requesting image url" in
  ((exists rest, body = String "!" rest)
   <-> exists e,
      fst (handle_picture host_down open_red NEAREST "u" 2 2 false
                          initial_state) = Raise e)
  /\ ((exists c rest, body = String c rest
                      /\ In c (list_ascii_of_string Np.digits))
      <-> exists arr,
         fst (handle_picture host_down open_red NEAREST "u" 2 2 false
                             initial_state) = Ok arr).
Proof.
  intros body.
  apply (error_body_iff_render_failed
           host_down open_red NEAREST "u" 0 4 2 2 false initial_state
           (snd (handle_picture host_down open_red NEAREST "u" 2 2 false
                                initial_state))
           body).
  - apply reachable_initial.
  - lia.
  - lia.
  - lia.
  - vm_compute. reflexivity.
Defined.

Lemma windows_concatenate_witness :
  let st := initial_state in
  let st1 := snd (handle_picture host_up open_red NEAREST "u" 2 2 false st) in
  exists body1 body2,
    get_picutre_pixels host_up open_red NEAREST "u" 0 1 2 2 false st
    = (PlainTextResponse body1, st1)
    /\ fst (get_picutre_pixels host_up open_red NEAREST "u" (0 + 1) 2 2 2
                               false st1)
       = PlainTextResponse body2
    /\ fst (get_picutre_pixels host_up open_red NEAREST "u" 0 (1 + 2) 2 2
                               false st)
       = PlainTextResponse (body1 ++ " " ++ body2).
Proof.
  intros st st1.
  apply (windows_concatenate
           host_up open_red NEAREST "u" 0 1 2 2 2 false st st1
           [4294901760; 4294901760; 4294901760; 4294901760]).
  - apply reachable_initial.
  - lia.
  - lia.
  - lia.
  - lia.
  - vm_compute. reflexivity.
Defined.

Lemma overflow_is_cropped_witness :
  (let c := - ((1 - 4) / 2) in
   0 <= c /\ c + 1 <= 4
   /\ exists out,
       resize_to_keep_aspect_ratio NEAREST red_2x2 4 1 = Ok out
       /\ forall x y,
           0 <= x < 4 -> 0 <= y < 1 ->
           getpixel out x y = NEAREST red_2x2 4 4 x (y + c))
  /\ (let c := - ((1 - 4) / 2) in
      0 <= c /\ c + 1 <= 4
      /\ exists out,
          resize_to_keep_aspect_ratio NEAREST gradient_2x3 1 6 = Ok out
          /\ forall x y,
              0 <= x < 1 -> 0 <= y < 6 ->
              getpixel out x y = NEAREST gradient_2x3 4 6 (x + c) y).
Proof.
  split.
  - apply (proj1 (overflow_is_cropped NEAREST red_2x2 4 1 4
                                      ltac:(lia) ltac:(lia))).
    + cbn. lia.
    + vm_compute. reflexivity.
    + lia.
  - apply (proj2 (overflow_is_cropped NEAREST gradient_2x3 1 6 4
                                      ltac:(lia) ltac:(lia))).
    + cbn. lia.
    + vm_compute. reflexivity.
    + lia.
Defined.

Lemma letterbox_is_centred_witness :
  (let top := (5 - 2) / 2 in
   let bottom := 5 - 2 - top in
   0 <= top <= bottom /\ bottom <= top + 1
   /\ exists out,
       resize_to_keep_aspect_ratio NEAREST gradient_3x2 4 5 = Ok out
       /\ forall x y,
           0 <= x < 4 -> 0 <= y < 5 ->
           nth (Z.to_nat (y * 4 + x)) (pack_pixels out) 0
           = if (top <=? y) && (y <? top + 2)
             then pack (NEAREST gradient_3x2 4 2 x (y - top))
             else 0)
  /\ (let left := (5 - 2) / 2 in
      let right := 5 - 2 - left in
      0 <= left <= right /\ right <= left + 1
      /\ exists out,
          resize_to_keep_aspect_ratio NEAREST gradient_2x3 5 4 = Ok out
          /\ forall x y,
              0 <= x < 5 -> 0 <= y < 4 ->
              nth (Z.to_nat (y * 5 + x)) (pack_pixels out) 0
              = if (left <=? x) && (x <? left + 2)
                then pack (NEAREST gradient_2x3 2 4 (x - left) y)
                else 0).
Proof.
  split.
  - apply (proj1 (letterbox_is_centred NEAREST gradient_3x2 4 5 2
                                       ltac:(lia) ltac:(lia))).
    + cbn. lia.
    + vm_compute. reflexivity.
    + lia.
  - apply (proj2 (letterbox_is_centred NEAREST gradient_2x3 5 4 2
                                       ltac:(lia) ltac:(lia))).
    + cbn. lia.
    + vm_compute. reflexivity.
    + lia.
Defined.

Lemma thin_source_refused_witness :
  resize_to_keep_aspect_ratio
    NEAREST {| width := 100; height := 1; getpixel := fun _ _ => red |} 10 10
  = Raise (ValueError "height and width must be > 0").
Proof.
  apply (thin_source_refused
           NEAREST {| width := 100; height := 1; getpixel := fun _ _ => red |}
           10 10); cbn [width height]; try lia.
Defined.

Lemma integer_factor_exact_witness :
  scaled (height gradient_3x2) (2 * width gradient_3x2) (width gradient_3x2)
  = Ok (2 * height gradient_3x2)
  /\ scaled (width gradient_3x2) (2 * height gradient_3x2)
            (height gradient_3x2)
     = Ok (2 * width gradient_3x2).
Proof.
  apply (integer_factor_exact gradient_3x2 2); cbn [width height gradient_3x2];
    lia.
Defined.

Lemma integer_zoom_same_as_stretch_witness :
  exists kept stretched,
    resized NEAREST gradient_2x3 (3 * width gradient_2x3)
            (3 * height gradient_2x3) true = Ok kept
    /\ resized NEAREST gradient_2x3 (3 * width gradient_2x3)
               (3 * height gradient_2x3) false = Ok stretched
    /\ pack_pixels kept = pack_pixels stretched.
Proof.
  apply (integer_zoom_same_as_stretch NEAREST gradient_2x3 3);
    cbn [width height gradient_2x3]; lia.
Defined.

Lemma pack_injective_witness :
  pack (255, 0, 0, 255) = pack (255, 0, 0, 255)
  /\ (255, 0, 0, 255) = (255, 0, 0, 255).
Proof.
  split; [reflexivity |].
  apply (pack_injective 255 0 0 255 255 0 0 255); try lia; reflexivity.
Defined.

Lemma body_length_bound_witness :
  let st1 := snd (handle_picture host_up open_red NEAREST "u" 2 2 false
                                 initial_state) in
  exists body,
    get_picutre_pixels host_up open_red NEAREST "u" 0 4 2 2 false initial_state
    = (PlainTextResponse body, st1)
    /\ 1 <= Z.of_nat (String.length body) <= 8 * Z.min 4 (2 * 2 - 0) - 1.
Proof.
  intros st1.
  apply (body_length_bound
           host_up open_red NEAREST "u" 0 4 2 2 false initial_state st1
           [4294901760; 4294901760; 4294901760; 4294901760]).
  - apply reachable_initial.
  - lia.
  - lia.
  - lia.
  - vm_compute. reflexivity.
Defined.
